(** * A shallow embedding of [skip_list<KeyType>] (includes/skip_list.hpp)

    The container is a pointer structure: a sentinel head node with
    [MAX_HEIGHT] forward pointers, and one heap node per stored key whose
    [forward] vector has one pointer per level the node takes part in.

    - The free store is a finite map from addresses to nodes.  [new] picks
      an address that is not in use, [delete] removes the binding, and
      reading through a null or dangling pointer, or indexing a vector out
      of range, is a fault: the operation yields [None].
    - [KeyType] is instantiated at [int], as in the demo driver and the
      test-suite; keys are only compared, never computed with, so they are
      integers without a range.
    - [current_height_] is an [int] that stays within [0, 16].  The
      [size_t] counter [element_count_] counts live nodes, which occupy
      distinct storage, so it cannot reach its wrap-around point; it is a
      natural number here.
    - In [insert], [erase] and the constructor every allocation succeeds;
      [insert_mem] and [erase_mem] are the same calls with the outcome of
      each allocation as a parameter.
    - [while] loops whose termination depends on the shape of the heap take
      a [fuel] argument.  [None] is therefore "fault or out of fuel";
      every result below is stated as [= Some _] for all sufficiently
      large fuel, which excludes both.
    - The random engine is a stream of draws together with a cursor. *)

From Stdlib Require Import ZArith NArith QArith Lia.
From stdpp Require Import base option list sorting gmap fin_maps.

Close Scope Q_scope.
Local Open Scope nat_scope.
#[local] Set Warnings "-clear-no-such-hyp".

(** ** Data model *)

(** [SkipNode*]: [None] is [nullptr]. *)
Abbreviation ptr := (option positive).

Record SkipNode := mkNode {
  value : Z;                (* KeyType value *)
  forward : list ptr        (* std::vector<SkipNode*> forward *)
}.

Abbreviation heap := (gmap positive SkipNode).

Definition MAX_HEIGHT : Z := 16.
Definition promotion_probability_ : Q := (1 # 2)%Q.

(** [std::mt19937] + [std::uniform_real_distribution<float>]: an infinite
    supply of draws, consumed one at a time. *)
Record rng := mkRng {
  draws : nat → Q;
  cursor : nat
}.

Definition distribution_ (g : rng) : Q * rng :=
  (draws g (cursor g), mkRng (draws g) (S (cursor g))).

Record skip_list := mkList {
  store : gmap positive SkipNode;
  sentinel_head_ : positive;
  current_height_ : Z;
  element_count_ : N;
  random_engine_ : rng
}.

(** ** Vectors and pointers *)

(** [v[i] = x] on a [std::vector]; out of range is a fault. *)
Definition vec_set {A} (v : list A) (i : nat) (x : A) : option (list A) :=
  if decide (i < length v) then Some (<[i := x]> v) else None.

(** The same with an [int] index, which may be negative. *)
Definition vec_set_int {A} (v : list A) (i : Z) (x : A) : option (list A) :=
  if decide (0 ≤ i)%Z then vec_set v (Z.to_nat i) x else None.

(** [a->forward[i]] *)
Definition get_forward (h : heap) (a : positive) (i : nat) : option ptr :=
  n ← h !! a; forward n !! i.

(** [a->forward[i] = p] *)
Definition set_forward (h : heap) (a : positive) (i : nat) (p : ptr)
  : option heap :=
  n ← h !! a;
  fw ← vec_set (forward n) i p;
  Some (<[a := mkNode (value n) fw]> h).

(** [new SkipNode(level, val)] when the allocation succeeds; [insert_mem]
    below has the exit taken when it throws. *)
Definition new_node (h : heap) (level : Z) (val : Z) : positive * heap :=
  let a := fresh (dom h) in
  (a, <[a := mkNode val (replicate (Z.to_nat level) None)]> h).

(** ** Height generation *)

Definition Qlt_bool (x y : Q) : bool := negb (Qle_bool y x).

(** [while (distribution_(random_engine_) < promotion_probability_
           && height < MAX_HEIGHT) ++height;]
    The draw is the left operand of [&&]: it is consumed on every test,
    including the last one. *)
Fixpoint height_loop (fuel : nat) (g : rng) (height : Z) : option (Z * rng) :=
  match fuel with
  | O => None
  | S fuel' =>
      let '(x, g') := distribution_ g in
      if Qlt_bool x promotion_probability_ && (height <? MAX_HEIGHT)%Z
      then height_loop fuel' g' (height + 1)%Z
      else Some (height, g')
  end.

Definition generateRandomHeight (fuel : nat) (g : rng) : option (Z * rng) :=
  height_loop fuel g 1%Z.

(** ** Construction *)

Definition new_skip_list (seed : rng) : skip_list :=
  let '(head, h) := new_node ∅ MAX_HEIGHT 0%Z in
  mkList h head 0%Z 0%N seed.

Definition size (s : skip_list) : N := element_count_ s.
Definition empty (s : skip_list) : bool := (element_count_ s =? 0)%N.

(** ** Search *)

(** [while (current->forward[i] && current->forward[i]->value < value)
        current = current->forward[i];] *)
Fixpoint advance (fuel : nat) (h : heap) (i : nat) (v : Z) (current : positive)
  : option positive :=
  match fuel with
  | O => None
  | S fuel' =>
      p ← get_forward h current i;
      match p with
      | None => Some current
      | Some nx =>
          n ← h !! nx;
          if (value n <? v)%Z then advance fuel' h i v nx else Some current
      end
  end.

(** [for (int i = current_height_ - 1; i >= 0; --i) { advance; }]
    as in [contains] and [find]; [n] is [i + 1]. *)
Fixpoint descend (fuel : nat) (h : heap) (v : Z) (n : nat) (current : positive)
  : option positive :=
  match n with
  | O => Some current
  | S i =>
      c ← advance fuel h i v current;
      descend fuel h v i c
  end.

(** The same loop with [update_path[i] = current;] as in [insert] and
    [erase]. *)
Fixpoint descend_path (fuel : nat) (h : heap) (v : Z) (n : nat)
    (current : positive) (update_path : list ptr)
  : option (positive * list ptr) :=
  match n with
  | O => Some (current, update_path)
  | S i =>
      c ← advance fuel h i v current;
      up ← vec_set update_path i (Some c);
      descend_path fuel h v i c up
  end.

(** [current && current->value == value] *)
Definition matches (h : heap) (current : ptr) (v : Z) : option bool :=
  match current with
  | None => Some false
  | Some a => n ← h !! a; Some (value n =? v)%Z
  end.

(** ** contains and find *)

Definition contains (fuel : nat) (v : Z) (s : skip_list) : option bool :=
  c ← descend fuel (store s) v (Z.to_nat (current_height_ s)) (sentinel_head_ s);
  current ← get_forward (store s) c 0;
  matches (store s) current v.

(** An iterator is its [current_node_]. *)
Abbreviation iterator := (option positive).

Definition end_ (s : skip_list) : iterator := None.

Definition begin_ (s : skip_list) : option iterator :=
  get_forward (store s) (sentinel_head_ s) 0.

Definition find (fuel : nat) (v : Z) (s : skip_list) : option iterator :=
  c ← descend fuel (store s) v (Z.to_nat (current_height_ s)) (sentinel_head_ s);
  current ← get_forward (store s) c 0;
  b ← matches (store s) current v;
  Some (if b : bool then current else end_ s).

(** dereference, [operator *] *)
Definition deref (h : heap) (it : iterator) : option Z :=
  a ← it; n ← h !! a; Some (value n).

(** prefix [operator++]: the new value of the iterator. *)
Definition incr (h : heap) (it : iterator) : option iterator :=
  match it with
  | Some a => get_forward h a 0
  | None => Some it
  end.

(** postfix [operator++]: the returned copy and the new value. *)
Definition post_incr (h : heap) (it : iterator) : option (iterator * iterator) :=
  let temp := it in
  it' ← incr h it;
  Some (temp, it').

(** [for (auto it = first; it != end(); ++it)] collecting the dereferenced
    iterator at every step, as the test-suite does. *)
Fixpoint traverse (fuel : nat) (h : heap) (it : iterator) : option (list Z) :=
  match fuel with
  | O => None
  | S fuel' =>
      match it with
      | None => Some []
      | Some _ =>
          x ← deref h it;
          it' ← incr h it;
          rest ← traverse fuel' h it';
          Some (x :: rest)
      end
  end.

Definition to_list (fuel : nat) (s : skip_list) : option (list Z) :=
  b ← begin_ s; traverse fuel (store s) b.

(** ** insert *)

(** [for (int i = current_height_; i < newHeight; ++i)
        update_path[i] = sentinel_head_;]  with [n] iterations left. *)
Fixpoint raise_path (n : nat) (i : Z) (head : positive) (update_path : list ptr)
  : option (list ptr) :=
  match n with
  | O => Some update_path
  | S n' =>
      up ← vec_set_int update_path i (Some head);
      raise_path n' (i + 1)%Z head up
  end.

(** [for (int i = 0; i < newHeight; ++i) {
        newNode->forward[i] = update_path[i]->forward[i];
        update_path[i]->forward[i] = newNode; }] *)
Fixpoint splice (n i : nat) (h : heap) (update_path : list ptr)
    (newNode : positive) : option heap :=
  match n with
  | O => Some h
  | S n' =>
      u ← update_path !! i;
      ua ← u;
      nx ← get_forward h ua i;
      h1 ← set_forward h newNode i nx;
      h2 ← set_forward h1 ua i (Some newNode);
      splice n' (S i) h2 update_path newNode
  end.

Definition insert (fuel : nat) (v : Z) (s : skip_list)
  : option (bool * skip_list) :=
  let update_path := replicate (Z.to_nat MAX_HEIGHT) (None : ptr) in
  '(c, update_path) ←
    descend_path fuel (store s) v (Z.to_nat (current_height_ s))
      (sentinel_head_ s) update_path;
  current ← get_forward (store s) c 0;
  dup ← matches (store s) current v;
  if dup : bool then Some (false, s)
  else
    '(newHeight, g) ← generateRandomHeight fuel (random_engine_ s);
    '(update_path, height) ←
      (if (newHeight >? current_height_ s)%Z then
         up ← raise_path (Z.to_nat (newHeight - current_height_ s))
                (current_height_ s) (sentinel_head_ s) update_path;
         Some (up, newHeight)
       else Some (update_path, current_height_ s));
    let '(newNode, h) := new_node (store s) newHeight v in
    h' ← splice (Z.to_nat newHeight) 0 h update_path newNode;
    Some (true, mkList h' (sentinel_head_ s) height (element_count_ s + 1)%N g).

(** ** erase *)

(** [for (int i = 0; i < current_height_; ++i) {
        if (update_path[i]->forward[i] != current) break;
        update_path[i]->forward[i] = current->forward[i]; }]
    Returns the heap and the value of [i] when the loop is left. *)
Fixpoint unlink (n i : nat) (h : heap) (update_path : list ptr)
    (current : positive) : option (heap * nat) :=
  match n with
  | O => Some (h, i)
  | S n' =>
      u ← update_path !! i;
      ua ← u;
      p ← get_forward h ua i;
      if decide (p = Some current) then
        nx ← get_forward h current i;
        h1 ← set_forward h ua i nx;
        unlink n' (S i) h1 update_path current
      else Some (h, i)
  end.

(** The unlink pass as the design notes of the specification word it:
    "unlink across exactly the removed node's own height", that is, over
    the levels [0 .. node_height - 1] with no break test.  This one
    follows the specification, not the source; it is compared with
    [unlink] below. *)
Fixpoint unlink_levels (n i : nat) (h : heap) (update_path : list ptr)
    (current : positive) : option heap :=
  match n with
  | O => Some h
  | S n' =>
      u ← update_path !! i;
      ua ← u;
      nx ← get_forward h current i;
      h1 ← set_forward h ua i nx;
      unlink_levels n' (S i) h1 update_path current
  end.

(** [while (current_height_ > 0
           && sentinel_head_->forward[current_height_ - 1] == nullptr)
        --current_height_;]  on [n = current_height_ ≥ 0]. *)
Fixpoint trim (h : heap) (head : positive) (n : nat) : option nat :=
  match n with
  | O => Some O
  | S k =>
      p ← get_forward h head k;
      match p with
      | None => trim h head k
      | Some _ => Some n
      end
  end.

Definition trim_height (h : heap) (head : positive) (height : Z) : option Z :=
  if (0 <? height)%Z then Z.of_nat <$> trim h head (Z.to_nat height)
  else Some height.

Definition erase (fuel : nat) (v : Z) (s : skip_list)
  : option (bool * skip_list) :=
  if empty s then Some (false, s)
  else
    let update_path := replicate (Z.to_nat MAX_HEIGHT) (None : ptr) in
    '(c, update_path) ←
      descend_path fuel (store s) v (Z.to_nat (current_height_ s))
        (sentinel_head_ s) update_path;
    current ← get_forward (store s) c 0;
    found ← matches (store s) current v;
    match current with
    | Some cur =>
        if found : bool then
          '(h, _) ← unlink (Z.to_nat (current_height_ s)) 0 (store s)
                      update_path cur;
          _ ← h !! cur;
          let h' := delete cur h in
          height ← trim_height h' (sentinel_head_ s) (current_height_ s);
          Some (true, mkList h' (sentinel_head_ s) height
                        (element_count_ s - 1)%N (random_engine_ s))
        else Some (false, s)
    | None => Some (false, s)
    end.

(** ** clear *)

(** [while (current) { next = current->forward[0]; delete current;
                       current = next; }] *)
Fixpoint free_chain (fuel : nat) (h : heap) (current : ptr) : option heap :=
  match fuel with
  | O => None
  | S fuel' =>
      match current with
      | None => Some h
      | Some a =>
          next ← get_forward h a 0;
          free_chain fuel' (delete a h) next
      end
  end.

(** [std::fill(sentinel_head_->forward.begin(), ..., nullptr)] *)
Definition fill_null (h : heap) (a : positive) : option heap :=
  n ← h !! a;
  Some (<[a := mkNode (value n) (replicate (length (forward n)) None)]> h).

Definition clear (fuel : nat) (s : skip_list) : option skip_list :=
  current ← get_forward (store s) (sentinel_head_ s) 0;
  h ← free_chain fuel (store s) current;
  h' ← fill_null h (sentinel_head_ s);
  Some (mkList h' (sentinel_head_ s) 0%Z 0%N (random_engine_ s)).

(** ** Operation sequences *)

Inductive op := Insert (v : Z) | Erase (v : Z) | Clear.

Definition apply_op (fuel : nat) (o : op) (s : skip_list) : option skip_list :=
  match o with
  | Insert v => snd <$> insert fuel v s
  | Erase v => snd <$> erase fuel v s
  | Clear => clear fuel s
  end.

Fixpoint run (fuel : nat) (ops : list op) (s : skip_list) : option skip_list :=
  match ops with
  | [] => Some s
  | o :: ops' => s' ← apply_op fuel o s; run fuel ops' s'
  end.

(** The keys a sequence of operations leaves present: inserted and not
    subsequently erased. *)
Fixpoint present (ops : list op) (acc : gset Z) : gset Z :=
  match ops with
  | [] => acc
  | Insert v :: ops' => present ops' ({[v]} ∪ acc)
  | Erase v :: ops' => present ops' (acc ∖ {[v]})
  | Clear :: ops' => present ops' ∅
  end.

(** Height of a node: the number of its forward pointers.  The real nodes
    are all nodes of the store but the sentinel. *)
Definition node_height (n : SkipNode) : nat := length (forward n).

Definition real_nodes (s : skip_list) : gmap positive SkipNode :=
  delete (sentinel_head_ s) (store s).

Definition max_node_height (s : skip_list) : nat :=
  map_fold (λ _ n m, node_height n `max` m) 0 (real_nodes s).

(** ** The abstract view: a sorted list of towers *)

Record tower := mkTower { taddr : positive; tkey : Z; theight : nat }.

(** The first tower of [l] that reaches level [i]; [d i] when there is
    none. *)
Fixpoint nxtd (d : nat → ptr) (i : nat) (l : list tower) : ptr :=
  match l with
  | [] => d i
  | t :: r => if decide (i < theight t) then Some (taddr t) else nxtd d i r
  end.

Definition linksd (d : nat → ptr) (n : nat) (l : list tower) : list ptr :=
  (λ i, nxtd d i l) <$> seq 0 n.

(** The heap cells of the towers of [l], laid over [base]. *)
Fixpoint cellsd (d : nat → ptr) (l : list tower) (base : heap) : heap :=
  match l with
  | [] => base
  | t :: r =>
      <[taddr t := mkNode (tkey t) (linksd d (theight t) r)]> (cellsd d r base)
  end.

(** A node [c] followed by the towers of [l]. *)
Definition seg (d : nat → ptr) (c : positive) (k : Z) (hh : nat)
    (l : list tower) (base : heap) : heap :=
  <[c := mkNode k (linksd d hh l)]> (cellsd d l base).

Definition nil_d : nat → ptr := λ _, None.

Definition repr (head : positive) (l : list tower) : heap :=
  seg nil_d head 0 16 l ∅.

Definition maxh (l : list tower) : nat :=
  foldr (λ t m, theight t `max` m) 0 l.

Record good (head : positive) (l : list tower) : Prop := mkGood {
  good_nodup : NoDup (head :: (taddr <$> l));
  good_sorted : StronglySorted Z.lt (tkey <$> l);
  good_heights : Forall (λ t, 1 ≤ theight t ≤ 16) l
}.

Record Repr (s : skip_list) (l : list tower) : Prop := mkRepr {
  repr_good : good (sentinel_head_ s) l;
  repr_store : store s = repr (sentinel_head_ s) l;
  repr_height : current_height_ s = Z.of_nat (maxh l);
  repr_count : element_count_ s = N.of_nat (length l)
}.

(** The representation invariant of the container. *)
Definition wf (s : skip_list) : Prop := ∃ l, Repr s l.

(** ** Positions, intermediate heaps and examples *)

(** The node reached through the towers of [m], starting at [c]. *)
Definition lastA (c : positive) (m : list tower) : positive :=
  foldl (λ _ t, taddr t) c m.

Definition lastK (k : Z) (m : list tower) : Z := foldl (λ _ t, tkey t) k m.

Definition lastH (hh : nat) (m : list tower) : nat :=
  foldl (λ _ t, theight t) hh m.

(** Every tower of [l] has its cell in [H]. *)
Fixpoint tailok (H : heap) (d : nat → ptr) (l : list tower) : Prop :=
  match l with
  | [] => True
  | t :: r =>
      H !! taddr t = Some (mkNode (tkey t) (linksd d (theight t) r)) ∧
      tailok H d r
  end.

(** The last node of [c :: l] that reaches level [i]. *)
Fixpoint lastd (i : nat) (c : positive) (l : list tower) : positive :=
  match l with
  | [] => c
  | t :: r => lastd i (if decide (i < theight t) then taddr t else c) r
  end.

(** [c] is where the descent stands when [n] levels remain: the towers
    after it do not exceed level [n], and it has at least [n] levels. *)
Definition start_pos (head : positive) (l : list tower) (n : nat)
    (c : positive) : Prop :=
  ∃ m r, l = m ++ r ∧ c = lastA head m ∧
         Forall (λ t, theight t ≤ n) r ∧ n ≤ lastH 16 m.

(** [c] is the update-path node of level [i]: the last node of the list
    that reaches level [i]. *)
Definition upd_pos (head : positive) (l : list tower) (i : nat)
    (c : positive) : Prop :=
  ∃ m r, l = m ++ r ∧ c = lastA head m ∧
         Forall (λ t, theight t ≤ i) r ∧ i < lastH 16 m.

(** Whatever lies beyond the list at level [i] does not precede [v]. *)
Definition stops (H : heap) (d : nat → ptr) (v : Z) (i : nat) : Prop :=
  ∀ a, d i = Some a → ∃ n, H !! a = Some n ∧ (v ≤ value n)%Z.

(** What lies beyond [l1] while the new node [a] is linked in at the
    levels below [j] only. *)
Definition ins_d (a : positive) (l2 : list tower) (j : nat) : nat → ptr :=
  λ i, if decide (i < j) then Some a else nxtd nil_d i l2.

Definition ins_heap (head : positive) (l1 l2 : list tower) (a : positive)
    (v : Z) (h j : nat) : heap :=
  seg (ins_d a l2 j) head 0 16 l1
    (<[a := mkNode v (linksd nil_d j l2 ++ replicate (h - j) None)]>
       (cellsd nil_d l2 ∅)).

(** What lies beyond [l1] while the node [a] of height [hc] is still linked
    in at the levels from [j] upwards. *)
Definition del_d (a : positive) (hc : nat) (r2 : list tower) (j : nat)
  : nat → ptr :=
  λ i, if decide (j ≤ i < hc) then Some a else nxtd nil_d i r2.

Definition del_heap (head : positive) (l1 : list tower) (t : tower)
    (r2 : list tower) (j : nat) : heap :=
  seg (del_d (taddr t) (theight t) r2 j) head 0 16 l1
    (cellsd nil_d (t :: r2) ∅).

Definition cleared (s : skip_list) : skip_list :=
  mkList (repr (sentinel_head_ s) []) (sentinel_head_ s) 0%Z 0%N
    (random_engine_ s).

(** A concrete random source for the examples: the draws alternate
    between 1/4 and 3/4. *)
Definition coin : rng :=
  mkRng (λ n, if Nat.even n then (1 # 4)%Q else (3 # 4)%Q) 0.

(** The demo driver's container after [insert(10); insert(20)]. *)
Definition demo_ops : list op := [Insert 10; Insert 20].

Definition demo_state : skip_list :=
  default (new_skip_list coin) (run 20 demo_ops (new_skip_list coin)).


(** ** The rest of the interface and its callers *)

(** [~skip_list() { clear(); delete sentinel_head_; }]: what is left of
    the free store when the container is gone. *)
Definition destroy (fuel : nat) (s : skip_list) : option heap :=
  s' ← clear fuel s;
  _ ← store s' !! sentinel_head_ s';
  Some (delete (sentinel_head_ s') (store s')).

(** [operator==] and [operator!=] on iterators compare [current_node_]. *)
Definition iter_eq (a b : iterator) : bool := bool_decide (a = b).
Definition iter_ne (a b : iterator) : bool := negb (bool_decide (a = b)).

(** [assert(b)] and gtest's [ASSERT_TRUE(b)]: a failure ends the run. *)
Definition assert (b : bool) : option unit := if b then Some () else None.

(** [main()] of the demo driver; the result is what the final loop
    prints. *)
Definition main (fuel : nat) (seed : rng) : option (list Z) :=
  let list := new_skip_list seed in
  '(b, list) ← insert fuel 10 list; _ ← assert b;
  '(b, list) ← insert fuel 20 list; _ ← assert b;
  '(b, list) ← insert fuel 10 list; _ ← assert (negb b);
  b ← contains fuel 20 list; _ ← assert b;
  b ← contains fuel 30 list; _ ← assert (negb b);
  '(b, list) ← erase fuel 10 list; _ ← assert b;
  '(b, list) ← erase fuel 10 list; _ ← assert (negb b);
  to_list fuel list.

(** The loops of the stress test [InsertAndEraseManyElements]:
    [for (...) ASSERT_TRUE(list.insert(elements[i]));] and the same with
    [contains] and [erase]. *)
Fixpoint insert_all (fuel : nat) (ks : list Z) (s : skip_list)
  : option skip_list :=
  match ks with
  | [] => Some s
  | k :: ks' => '(b, s') ← insert fuel k s; _ ← assert b; insert_all fuel ks' s'
  end.

Fixpoint contains_all (fuel : nat) (ks : list Z) (s : skip_list)
  : option unit :=
  match ks with
  | [] => Some ()
  | k :: ks' => b ← contains fuel k s; _ ← assert b; contains_all fuel ks' s
  end.

Fixpoint erase_all (fuel : nat) (ks : list Z) (s : skip_list)
  : option skip_list :=
  match ks with
  | [] => Some s
  | k :: ks' => '(b, s') ← erase fuel k s; _ ← assert b; erase_all fuel ks' s'
  end.

(** Calls of the public interface and what the caller sees of them. *)
Inductive call :=
  | CallInsert (v : Z) | CallErase (v : Z) | CallContains (v : Z)
  | CallFind (v : Z) | CallSize | CallEmpty | CallClear | CallIterate.

Inductive answer :=
  | ABool (b : bool) | AFound (k : option Z) | ASize (n : N)
  | AKeys (ks : list Z) | ADone.

(** [find] is observed through the returned iterator: [end()], or the key
    it dereferences to. *)
Definition do_call (fuel : nat) (c : call) (s : skip_list)
  : option (answer * skip_list) :=
  match c with
  | CallInsert v => '(b, s') ← insert fuel v s; Some (ABool b, s')
  | CallErase v => '(b, s') ← erase fuel v s; Some (ABool b, s')
  | CallContains v => b ← contains fuel v s; Some (ABool b, s)
  | CallFind v =>
      it ← find fuel v s;
      if iter_eq it (end_ s) then Some (AFound None, s)
      else k ← deref (store s) it; Some (AFound (Some k), s)
  | CallSize => Some (ASize (size s), s)
  | CallEmpty => Some (ABool (empty s), s)
  | CallClear => s' ← clear fuel s; Some (ADone, s')
  | CallIterate => ks ← to_list fuel s; Some (AKeys ks, s)
  end.

Fixpoint do_calls (fuel : nat) (cs : list call) (s : skip_list)
  : option (list answer * skip_list) :=
  match cs with
  | [] => Some ([], s)
  | c :: cs' =>
      '(a, s') ← do_call fuel c s;
      '(as', s'') ← do_calls fuel cs' s';
      Some (a :: as', s'')
  end.

(** The reference the answers are compared with: an ordered set kept as a
    strictly increasing list. *)
Fixpoint ins_key (v : Z) (ks : list Z) : list Z :=
  match ks with
  | [] => [v]
  | k :: r => if (v <? k)%Z then v :: k :: r else k :: ins_key v r
  end.

Definition ref_call (c : call) (ks : list Z) : answer * list Z :=
  match c with
  | CallInsert v =>
      if bool_decide (v ∈ ks) then (ABool false, ks)
      else (ABool true, ins_key v ks)
  | CallErase v => (ABool (bool_decide (v ∈ ks)), filter (λ k, k ≠ v) ks)
  | CallContains v => (ABool (bool_decide (v ∈ ks)), ks)
  | CallFind v => (AFound (if bool_decide (v ∈ ks) then Some v else None), ks)
  | CallSize => (ASize (N.of_nat (length ks)), ks)
  | CallEmpty => (ABool (bool_decide (ks = [])), ks)
  | CallClear => (ADone, [])
  | CallIterate => (AKeys ks, ks)
  end.

Fixpoint ref_calls (cs : list call) (ks : list Z) : list answer * list Z :=
  match cs with
  | [] => ([], ks)
  | c :: cs' =>
      let '(a, ks') := ref_call c ks in
      let '(as', ks'') := ref_calls cs' ks' in
      (a :: as', ks'')
  end.

(** The address of the node that holds key [k], if any. *)
Definition addr_of (k : Z) (l : list tower) : option positive :=
  taddr <$> head (filter (λ t, tkey t = k) l).

(** The container [s] is well formed and holds exactly the keys [ks], in
    this order. *)
Definition holds_keys (s : skip_list) (ks : list Z) : Prop :=
  ∃ l, Repr s l ∧ tkey <$> l = ks.

(** ** Allocation failure *)

(** [insert] and [erase] above are the calls in which every allocation
    succeeds.  An allocation that fails throws [std::bad_alloc], which
    nothing in the class catches: the call is left at that point and the
    container stays as it is then.  Each call allocates at most twice: the
    [update_path] vector (first statement of the search in [insert] and in
    [erase]) and the node ([new SkipNode] in [insert], together with the
    [forward] vector its constructor builds). *)
Inductive memory := Enough | NoUpdatePath | NoNode.

(** How a call ends: it returns, or the exception leaves it. *)
Inductive outcome :=
  | Returned (b : bool) (s : skip_list)
  | BadAlloc (s : skip_list).

Definition state_after (o : outcome) : skip_list :=
  match o with Returned _ s => s | BadAlloc s => s end.

(** [insert] with its two allocations.  [current_height_ = newHeight]
    and the draws of [generateRandomHeight] come before [new SkipNode]. *)
Definition insert_mem (m : memory) (fuel : nat) (v : Z) (s : skip_list)
  : option outcome :=
  match m with
  | NoUpdatePath => Some (BadAlloc s)
  | _ =>
    let update_path := replicate (Z.to_nat MAX_HEIGHT) (None : ptr) in
    '(c, update_path) ←
      descend_path fuel (store s) v (Z.to_nat (current_height_ s))
        (sentinel_head_ s) update_path;
    current ← get_forward (store s) c 0;
    dup ← matches (store s) current v;
    if dup : bool then Some (Returned false s)
    else
      '(newHeight, g) ← generateRandomHeight fuel (random_engine_ s);
      '(update_path, height) ←
        (if (newHeight >? current_height_ s)%Z then
           up ← raise_path (Z.to_nat (newHeight - current_height_ s))
                  (current_height_ s) (sentinel_head_ s) update_path;
           Some (up, newHeight)
         else Some (update_path, current_height_ s));
      match m with
      | NoNode =>
          Some (BadAlloc (mkList (store s) (sentinel_head_ s) height
                            (element_count_ s) g))
      | _ =>
          let '(newNode, h) := new_node (store s) newHeight v in
          h' ← splice (Z.to_nat newHeight) 0 h update_path newNode;
          Some (Returned true
                  (mkList h' (sentinel_head_ s) height
                     (element_count_ s + 1)%N g))
      end
  end.

(** [erase] allocates its [update_path] after the [empty()] test and
    nothing else. *)
Definition erase_mem (m : memory) (fuel : nat) (v : Z) (s : skip_list)
  : option outcome :=
  if empty s then Some (Returned false s)
  else
    match m with
    | NoUpdatePath => Some (BadAlloc s)
    | _ => '(b, s') ← erase fuel v s; Some (Returned b s')
    end.

(** Sequences of operations, each with what the allocator does during
    it; the container is used on after an exception. *)
Definition apply_mem_op (fuel : nat) (om : op * memory) (s : skip_list)
  : option skip_list :=
  match om.1 with
  | Insert v => state_after <$> insert_mem om.2 fuel v s
  | Erase v => state_after <$> erase_mem om.2 fuel v s
  | Clear => clear fuel s
  end.

Fixpoint run_mem (fuel : nat) (ops : list (op * memory)) (s : skip_list)
  : option skip_list :=
  match ops with
  | [] => Some s
  | om :: ops' => s' ← apply_mem_op fuel om s; run_mem fuel ops' s'
  end.

(** An insert whose node allocation fails. *)
Definition node_alloc_fails (om : op * memory) : bool :=
  match om with
  | (Insert _, NoNode) => true
  | _ => false
  end.

(** The invariant that survives a failed allocation: as [Repr], but
    [current_height_] may lie above the tallest node. *)
Record Loose (s : skip_list) (l : list tower) : Prop := mkLoose {
  loose_good : good (sentinel_head_ s) l;
  loose_store : store s = repr (sentinel_head_ s) l;
  loose_height : (Z.of_nat (maxh l) ≤ current_height_ s ≤ 16)%Z;
  loose_count : element_count_ s = N.of_nat (length l)
}.

(** A random source whose first node gets height 4 and whose second gets
    height 2, and the container holding 10 (height 4) and 20 (height 2). *)
Definition steps : rng :=
  mkRng (λ n, if (n <? 3) || (n =? 4) then (1 # 4)%Q else (3 # 4)%Q) 0.

Definition stepped_state : skip_list :=
  default (new_skip_list steps) (run 20 demo_ops (new_skip_list steps)).

(** ** Lists of towers *)

Lemma linksd_length d n l : length (linksd d n l) = n.
Proof. unfold linksd. by rewrite length_fmap, length_seq. Qed.

Lemma linksd_lookup d n l i :
  i < n → linksd d n l !! i = Some (nxtd d i l).
Proof.
  intros Hi. unfold linksd.
  by rewrite list_lookup_fmap, lookup_seq_lt.
Qed.

Lemma linksd_lookup_ge d n l i : n ≤ i → linksd d n l !! i = None.
Proof. intros Hi. apply lookup_ge_None_2. by rewrite linksd_length. Qed.

Lemma nxtd_ext d d' i l : d i = d' i → nxtd d i l = nxtd d' i l.
Proof. intros Hd. induction l as [|t r IH]; simpl; [done|]. by rewrite IH. Qed.

Lemma linksd_ext d d' n l :
  (∀ i, i < n → d i = d' i) → linksd d n l = linksd d' n l.
Proof.
  intros Hd. apply list_eq. intros i.
  destruct (decide (i < n)).
  - rewrite !linksd_lookup by done. f_equal. apply nxtd_ext. auto.
  - rewrite !linksd_lookup_ge by lia. done.
Qed.

Lemma nxtd_low d i l :
  Forall (λ t, theight t ≤ i) l → nxtd d i l = d i.
Proof.
  induction 1 as [|t r Ht _ IH]; simpl; [done|].
  destruct (decide (i < theight t)); [lia | done].
Qed.

Lemma nxtd_app d i l1 l2 :
  nxtd d i (l1 ++ l2) = nxtd (λ j, nxtd d j l2) i l1.
Proof. induction l1 as [|t r IH]; simpl; [done|]. by rewrite IH. Qed.

Lemma nxtd_reach d d' i l :
  Exists (λ t, i < theight t) l → nxtd d i l = nxtd d' i l.
Proof.
  induction l as [|t r IH]; intros Hex; simpl.
  - by apply Exists_nil in Hex.
  - destruct (decide (i < theight t)); [done|].
    apply Exists_cons in Hex as [?|?]; [lia | auto].
Qed.

Lemma nxtd_elem d i l a :
  nxtd d i l = Some a →
  d i = Some a ∨ ∃ t, t ∈ l ∧ taddr t = a ∧ i < theight t.
Proof.
  induction l as [|t r IH]; simpl; [auto|].
  destruct (decide (i < theight t)).
  - intros [= <-]. right. exists t. split; [left | done].
  - intros H. destruct (IH H) as [?|(t' & ? & ? & ?)]; [auto|].
    right. exists t'. split; [by right | done].
Qed.

Lemma linksd_app d n l1 l2 :
  linksd d n (l1 ++ l2) = linksd (λ j, nxtd d j l2) n l1.
Proof.
  unfold linksd. apply list_fmap_ext. intros _ i _. apply nxtd_app.
Qed.

Lemma cellsd_ext d d' l base :
  (∀ i, d i = d' i) → cellsd d l base = cellsd d' l base.
Proof.
  intros Hd. induction l as [|t r IH]; simpl; [done|].
  rewrite IH. do 2 f_equal. apply linksd_ext. auto.
Qed.

Lemma cellsd_app d l1 l2 base :
  cellsd d (l1 ++ l2) base = cellsd (λ j, nxtd d j l2) l1 (cellsd d l2 base).
Proof.
  induction l1 as [|t r IH]; simpl; [done|].
  by rewrite IH, linksd_app.
Qed.

Lemma cellsd_lookup_ne d l base a :
  a ∉ taddr <$> l → cellsd d l base !! a = base !! a.
Proof.
  induction l as [|t r IH]; simpl; [done|].
  intros Hn. apply not_elem_of_cons in Hn as [? ?].
  rewrite lookup_insert_ne by done. auto.
Qed.

Lemma cellsd_insert_base d l base a n :
  a ∉ taddr <$> l →
  cellsd d l (<[a := n]> base) = <[a := n]> (cellsd d l base).
Proof.
  induction l as [|t r IH]; simpl; [done|].
  intros Hn. apply not_elem_of_cons in Hn as [? ?].
  rewrite IH by done. by rewrite insert_insert_ne.
Qed.

Lemma cellsd_delete_base d l base a :
  a ∉ taddr <$> l →
  delete a (cellsd d l base) = cellsd d l (delete a base).
Proof.
  induction l as [|t r IH]; simpl; [done|].
  intros Hn. apply not_elem_of_cons in Hn as [? ?].
  rewrite delete_insert_ne by done. by rewrite IH.
Qed.

(** ** Positions in the list *)

Lemma lastA_elem c m : lastA c m ∈ c :: (taddr <$> m).
Proof.
  revert c. induction m as [|t m IH]; intros c; simpl.
  - left.
  - right. apply IH.
Qed.

Lemma lastH_reach i t m :
  i < lastH (theight t) m → Exists (λ t, i < theight t) (t :: m).
Proof.
  revert t. induction m as [|t' m IH]; intros t; simpl.
  - intros. by left.
  - intros H. right. by apply IH.
Qed.

Lemma cellsd_low d d' j r base :
  Forall (λ t, theight t ≤ j) r →
  (∀ i, i ≠ j → d' i = d i) →
  cellsd d' r base = cellsd d r base.
Proof.
  intros Hlow Hd. induction Hlow as [|t r Ht _ IH]; simpl; [done|].
  rewrite IH. do 2 f_equal. apply linksd_ext. intros i Hi. apply Hd. lia.
Qed.

Lemma linksd_relink d d' j hh r :
  Forall (λ t, theight t ≤ j) r →
  (∀ i, i ≠ j → d' i = d i) →
  linksd d' hh r = <[j := d' j]> (linksd d hh r).
Proof.
  intros Hlow Hd. apply list_eq. intros i.
  destruct (decide (i = j)) as [->|Hne].
  - destruct (decide (j < hh)).
    + rewrite list_lookup_insert_eq by (by rewrite linksd_length).
      rewrite linksd_lookup by done. by rewrite nxtd_low.
    + rewrite list_insert_ge by (rewrite linksd_length; lia).
      by rewrite !linksd_lookup_ge by lia.
  - rewrite list_lookup_insert_ne by done.
    destruct (decide (i < hh)).
    + rewrite !linksd_lookup by done. f_equal. apply nxtd_ext. auto.
    + by rewrite !linksd_lookup_ge by lia.
Qed.

Lemma linksd_reach d d' j hh l :
  Exists (λ t, j < theight t) l →
  (∀ i, i ≠ j → d' i = d i) →
  linksd d' hh l = linksd d hh l.
Proof.
  intros Hex Hd. apply list_eq. intros i.
  destruct (decide (i < hh)).
  - rewrite !linksd_lookup by done. f_equal.
    destruct (decide (i = j)) as [->|Hne].
    + by apply nxtd_reach.
    + apply nxtd_ext. auto.
  - by rewrite !linksd_lookup_ge by lia.
Qed.

(** Changing what lies beyond the list at level [j] only changes one
    pointer: the level-[j] link of the last node that reaches level [j]. *)
Lemma seg_relink d d' j base m r c k hh :
  NoDup (c :: (taddr <$> m)) →
  Forall (λ t, theight t ≤ j) r →
  j < lastH hh m →
  (∀ i, i ≠ j → d' i = d i) →
  seg d' c k hh (m ++ r) base =
  <[lastA c m :=
      mkNode (lastK k m) (<[j := d' j]> (linksd d (lastH hh m) r))]>
    (seg d c k hh (m ++ r) base).
Proof.
  intros Hnd Hlow Hj Hd. revert c k hh Hnd Hj.
  induction m as [|t m IH]; intros c k hh Hnd Hj; simpl in *.
  - unfold seg. rewrite insert_insert_eq.
    rewrite (cellsd_low d d' j) by done.
    by rewrite (linksd_relink d d' j).
  - apply NoDup_cons in Hnd as [Hc Hnd].
    unfold seg at 1 2; simpl.
    fold (seg d' (taddr t) (tkey t) (theight t) (m ++ r) base).
    fold (seg d (taddr t) (tkey t) (theight t) (m ++ r) base).
    rewrite (IH _ _ _ Hnd Hj).
    rewrite (linksd_reach d d' j hh (t :: m ++ r)); [|
      apply (Exists_app (λ t, j < theight t) (t :: m) r); left;
      by apply lastH_reach | done].
    apply insert_insert_ne. intros ->.
    apply Hc. apply (lastA_elem (taddr t) m).
Qed.

(** ** Reading the heap through the list *)

Lemma tailok_app H d l1 l2 :
  tailok H d (l1 ++ l2) ↔
  tailok H (λ j, nxtd d j l2) l1 ∧ tailok H d l2.
Proof.
  induction l1 as [|t r IH]; simpl.
  - tauto.
  - rewrite IH, linksd_app. tauto.
Qed.

Lemma tailok_agree H H' d l :
  (∀ a, a ∈ taddr <$> l → H' !! a = H !! a) →
  tailok H d l → tailok H' d l.
Proof.
  induction l as [|t r IH]; simpl; [done|].
  intros Hag [Ht Hr]. split.
  - rewrite Hag; [done | left].
  - apply IH; [|done]. intros a Ha. apply Hag. by right.
Qed.

Lemma tailok_cellsd d l base :
  NoDup (taddr <$> l) → tailok (cellsd d l base) d l.
Proof.
  induction l as [|t r IH]; simpl; [done|].
  intros Hnd. apply NoDup_cons in Hnd as [Ht Hnd]. split.
  - by rewrite lookup_insert_eq.
  - eapply tailok_agree; [|by apply IH].
    intros a Ha. rewrite lookup_insert_ne; [done|]. by intros <-.
Qed.

Lemma tailok_seg d c k hh l base :
  NoDup (c :: (taddr <$> l)) → tailok (seg d c k hh l base) d l.
Proof.
  intros Hnd. apply NoDup_cons in Hnd as [Hc Hnd].
  eapply tailok_agree; [|by apply (tailok_cellsd d l base)].
  intros a Ha. unfold seg. rewrite lookup_insert_ne; [done|]. by intros <-.
Qed.

(** The node at a position [m | r] of the list. *)
Lemma node_at H d c k hh m r :
  H !! c = Some (mkNode k (linksd d hh (m ++ r))) →
  tailok H d (m ++ r) →
  H !! lastA c m = Some (mkNode (lastK k m) (linksd d (lastH hh m) r)).
Proof.
  revert c k hh. induction m as [|t m IH]; intros c k hh Hc Hok; simpl in *.
  - done.
  - destruct Hok as [Ht Hok]. by apply IH.
Qed.

Lemma tailok_elem H d l t :
  tailok H d l → t ∈ l → ∃ fw, H !! taddr t = Some (mkNode (tkey t) fw).
Proof.
  induction l as [|t' r IH]; simpl; intros Hok Hin.
  - by apply elem_of_nil in Hin.
  - destruct Hok as [Ht Hok].
    apply elem_of_cons in Hin as [->|Hin]; eauto.
Qed.

(** ** The search path *)

Lemma upd_pos_start head l i c : upd_pos head l i c → start_pos head l i c.
Proof.
  intros (m & r & ? & ? & ? & ?). exists m, r. split_and!; [done..|lia].
Qed.

Lemma lastd_split i r c :
  ∃ r1 r2, r = r1 ++ r2 ∧ Forall (λ t, theight t ≤ i) r2 ∧
           lastd i c r = lastA c r1 ∧ ∀ hh, i < hh → i < lastH hh r1.
Proof.
  revert c. induction r as [|t r IH]; intros c; simpl.
  - exists [], []. split_and!; try done.
  - destruct (decide (i < theight t)) as [Hlt|Hge].
    + destruct (IH (taddr t)) as (r1 & r2 & -> & Hlow & Hl & Hh).
      exists (t :: r1), r2. split_and!; try done.
      intros hh _. simpl. by apply Hh.
    + destruct (IH c) as (r1 & r2 & -> & Hlow & Hl & Hh).
      destruct r1 as [|t1 r1].
      * exists [], (t :: r2). split_and!; try done.
        apply Forall_cons. split; [lia | done].
      * exists (t :: t1 :: r1), r2. by split_and!.
Qed.

Section search.
Context (H : heap) (d : nat → ptr) (v : Z).

Lemma advance_spec i l : stops H d v i →
  ∀ c fuel,
  tailok H d l →
  Forall (λ t, (tkey t < v)%Z) l →
  get_forward H c i = Some (nxtd d i l) →
  length l < fuel →
  advance fuel H i v c = Some (lastd i c l).
Proof.
  intros Hstop. induction l as [|t r IH]; intros c fuel Hok Hlt Hc Hfuel.
  - destruct fuel as [|fuel]; [simpl in Hfuel; lia|].
    simpl in *. rewrite Hc. simpl.
    destruct (d i) as [a|] eqn:Hd; [|done].
    destruct (Hstop a Hd) as (n & -> & Hv). simpl.
    by rewrite (proj2 (Z.ltb_ge _ _) Hv).
  - simpl in Hok. destruct Hok as [Ht Hok].
    apply Forall_cons in Hlt as [Hk Hlt].
    simpl in Hc. simpl lastd.
    destruct (decide (i < theight t)) as [Hi|Hi].
    + destruct fuel as [|fuel]; [simpl in Hfuel; lia|].
      simpl. rewrite Hc. simpl. rewrite Ht. simpl.
      rewrite (proj2 (Z.ltb_lt _ _) Hk).
      apply IH; [done..| |simpl in Hfuel; lia].
      unfold get_forward. rewrite Ht. simpl. by apply linksd_lookup.
    + apply IH; [done..|simpl in Hfuel; lia].
Qed.

Context (head : positive) (l : list tower).
Hypothesis Hhead : H !! head = Some (mkNode 0 (linksd d 16 l)).
Hypothesis Hok : tailok H d l.
Hypothesis Hlt : Forall (λ t, (tkey t < v)%Z) l.
Hypothesis Hstops : ∀ i, stops H d v i.

Lemma advance_level i c fuel :
  start_pos head l (S i) c → length l < fuel →
  ∃ c', advance fuel H i v c = Some c' ∧ upd_pos head l i c'.
Proof.
  intros (m & r & -> & -> & Hlow & Hh) Hfuel.
  pose proof (node_at H d head 0 16 m r Hhead Hok) as Hn.
  apply tailok_app in Hok as [_ Hokr].
  apply Forall_app in Hlt as [_ Hltr].
  rewrite length_app in Hfuel.
  eexists. split.
  - apply (advance_spec i r); [done..| |lia].
    unfold get_forward. rewrite Hn. simpl. apply linksd_lookup. lia.
  - destruct (lastd_split i r (lastA head m)) as (r1 & r2 & -> & ? & -> & Hr).
    exists (m ++ r1), r2. split_and!.
    + by rewrite app_assoc.
    + unfold lastA. by rewrite foldl_app.
    + done.
    + unfold lastH in *. rewrite foldl_app. apply Hr. lia.
Qed.

Lemma descend_path_spec fuel : length l < fuel →
  ∀ n c up,
  n ≤ length up → start_pos head l n c →
  ∃ c' up',
    descend_path fuel H v n c up = Some (c', up') ∧
    start_pos head l 0 c' ∧ length up' = length up ∧
    (∀ i, i < n → ∃ ci, up' !! i = Some (Some ci) ∧ upd_pos head l i ci) ∧
    (∀ i, n ≤ i → up' !! i = up !! i).
Proof.
  intros Hfuel. induction n as [|i IH]; intros c up Hlen Hpos.
  - exists c, up. simpl. split_and!; try done. intros; lia.
  - destruct (advance_level i c fuel Hpos Hfuel) as (c1 & Hadv & Hc1).
    simpl. rewrite Hadv. simpl. unfold vec_set.
    destruct (decide (i < length up)) as [_|]; [|lia]. simpl.
    destruct (IH c1 (<[i := Some c1]> up)) as (c' & up' & -> & ? & Hl & Hup & Hrest).
    { rewrite length_insert. lia. }
    { by apply upd_pos_start. }
    exists c', up'. rewrite length_insert in Hl.
    split_and!; try done.
    + intros j Hj. destruct (decide (j = i)) as [->|].
      * exists c1. split; [|done].
        rewrite Hrest by lia. apply list_lookup_insert_eq. lia.
      * apply Hup. lia.
    + intros j Hj. rewrite Hrest by lia.
      apply list_lookup_insert_ne. lia.
Qed.

Lemma descend_path_fst fuel n c up c' up' :
  descend_path fuel H v n c up = Some (c', up') →
  descend fuel H v n c = Some c'.
Proof.
  revert c up. induction n as [|i IH]; intros c up; simpl.
  - by intros [= -> _].
  - destruct (advance fuel H i v c) as [c1|]; simpl; [|done].
    destruct (vec_set up i (Some c1)) as [up1|]; simpl; [|done].
    apply IH.
Qed.
End search.

(** ** Searching a well-formed list *)

Lemma key_split v l :
  StronglySorted Z.lt (tkey <$> l) →
  ∃ l1 l2, l = l1 ++ l2 ∧ Forall (λ t, (tkey t < v)%Z) l1 ∧
           Forall (λ t, (v ≤ tkey t)%Z) l2.
Proof.
  induction l as [|t r IH]; simpl; intros Hs.
  - exists [], []. by split_and!.
  - apply StronglySorted_inv in Hs as [Hs Hall].
    destruct (decide (tkey t < v)%Z) as [Hlt|Hge].
    + destruct (IH Hs) as (l1 & l2 & -> & H1 & H2).
      exists (t :: l1), l2. split_and!; [done| |done].
      by apply Forall_cons.
    + exists [], (t :: r). split_and!; [done..|].
      apply Forall_cons. split; [lia|].
      rewrite Forall_fmap in Hall. eapply Forall_impl; [apply Hall|].
      simpl. intros; lia.
Qed.

Lemma maxh_app l1 l2 : maxh (l1 ++ l2) = maxh l1 `max` maxh l2.
Proof. induction l1 as [|t r IH]; simpl; [done|]. rewrite IH. lia. Qed.

Lemma maxh_le l : Forall (λ t, theight t ≤ maxh l) l.
Proof.
  induction l as [|t r IH]; simpl; constructor; [lia|].
  eapply Forall_impl; [apply IH|]. simpl. intros; lia.
Qed.

Lemma maxh_bound l n : Forall (λ t, theight t ≤ n) l → maxh l ≤ n.
Proof. induction 1; simpl; lia. Qed.

Lemma maxh_low l n : maxh l ≤ n → Forall (λ t, theight t ≤ n) l.
Proof.
  intros Hn. eapply Forall_impl; [apply maxh_le|]. simpl. intros; lia.
Qed.

Lemma nxtd_nil_None k l : nxtd nil_d k l = None ↔ maxh l ≤ k.
Proof.
  induction l as [|t r IH]; simpl.
  - unfold nil_d. split; [lia | done].
  - destruct (decide (k < theight t)).
    + split; [done | lia].
    + rewrite IH. lia.
Qed.

Lemma lastH_pos hh m :
  Forall (λ t, 1 ≤ theight t) m → 1 ≤ hh → 1 ≤ lastH hh m.
Proof.
  intros Hm. revert hh. induction Hm as [|t m Ht _ IH]; intros hh Hhh; simpl.
  - done.
  - by apply IH.
Qed.

Lemma repr_split head l1 l2 :
  repr head (l1 ++ l2) =
  seg (λ j, nxtd nil_d j l2) head 0 16 l1 (cellsd nil_d l2 ∅).
Proof. unfold repr, seg. by rewrite linksd_app, cellsd_app. Qed.

Lemma good_app_l head l1 l2 : good head (l1 ++ l2) → good head l1.
Proof.
  intros [Hnd Hs Hh]. rewrite fmap_app in Hnd. rewrite fmap_app in Hs. split.
  - apply NoDup_cons in Hnd as [Hh' Hnd].
    apply NoDup_app in Hnd as (? & _ & _).
    apply NoDup_cons. split; [|done].
    intros ?. apply Hh'. apply elem_of_app. by left.
  - by apply StronglySorted_app_1_l in Hs.
  - by apply Forall_app in Hh as [? _].
Qed.

Lemma good_heights_pos head l :
  good head l → Forall (λ t, 1 ≤ theight t) l.
Proof.
  intros [_ _ Hh]. eapply Forall_impl; [apply Hh|]. simpl. intros; lia.
Qed.

Lemma good_maxh head l : good head l → maxh l ≤ 16.
Proof.
  intros [_ _ Hh]. apply maxh_bound.
  eapply Forall_impl; [apply Hh|]. simpl. intros; lia.
Qed.

Lemma repr_tailok head l : good head l → tailok (repr head l) nil_d l.
Proof. intros [Hnd _ _]. by apply tailok_seg. Qed.

Section search_repr.
Context (head : positive) (l1 l2 : list tower) (v : Z).
Hypothesis Hgood : good head (l1 ++ l2).
Hypothesis Hlt : Forall (λ t, (tkey t < v)%Z) l1.
Hypothesis Hge : Forall (λ t, (v ≤ tkey t)%Z) l2.


Lemma repr_stops i : stops (repr head (l1 ++ l2)) (λ j, nxtd nil_d j l2) v i.
Proof.
  intros a Ha. apply nxtd_elem in Ha as [Ha|(t & Ht & <- & _)]; [done|].
  pose proof (repr_tailok head _ Hgood) as Hok.
  apply tailok_app in Hok as [_ Hok].
  destruct (tailok_elem _ _ _ _ Hok Ht) as (fw & Hfw).
  exists (mkNode (tkey t) fw). split; [done|]. simpl.
  by apply (proj1 (Forall_forall _ _) Hge).
Qed.

Lemma repr_head_node :
  repr head (l1 ++ l2) !! head =
  Some (mkNode 0 (linksd (λ j, nxtd nil_d j l2) 16 l1)).
Proof. rewrite repr_split. apply lookup_insert_eq. Qed.

Lemma repr_tailok_l :
  tailok (repr head (l1 ++ l2)) (λ j, nxtd nil_d j l2) l1.
Proof.
  pose proof (repr_tailok head _ Hgood) as Hok.
  by apply tailok_app in Hok as [? _].
Qed.

Lemma search_repr fuel n :
  length (l1 ++ l2) < fuel → maxh (l1 ++ l2) ≤ n → n ≤ 16 →
  ∃ c up,
    descend_path fuel (repr head (l1 ++ l2)) v n head (replicate 16 None)
      = Some (c, up) ∧
    length up = 16 ∧
    (∀ i, i < n → ∃ ci, up !! i = Some (Some ci) ∧ upd_pos head l1 i ci) ∧
    get_forward (repr head (l1 ++ l2)) c 0 = Some (nxtd nil_d 0 l2).
Proof.
  intros Hfuel Hmax Hn. rewrite length_app in Hfuel.
  assert (length l1 < fuel) as Hfuel1 by lia.
  pose proof repr_head_node as Hhd. pose proof repr_tailok_l as Htl.
  pose proof repr_stops as Hst.
  destruct (descend_path_spec _ _ v head l1 Hhd Htl
              Hlt Hst fuel Hfuel1 n head (replicate 16 None))
    as (c & up & Hd & Hpos & Hlen & Hup & _).
  { rewrite length_replicate. lia. }
  { exists [], l1. split_and!; [done..| |done].
    apply maxh_low. rewrite maxh_app in Hmax. lia. }
  exists c, up. rewrite length_replicate in Hlen. split_and!; [done..|].
  destruct Hpos as (m & r & -> & -> & Hlow & _).
  assert (r = []) as ->.
  { destruct r as [|t r]; [done|]. apply Forall_cons in Hlow as [Ht _].
    apply good_heights_pos, Forall_app in Hgood as [Hp _].
    apply Forall_app in Hp as [_ Hp]. apply Forall_cons in Hp as [? _]. lia. }
  unfold get_forward.
  rewrite (node_at _ _ head 0 16 m [] Hhd Htl).
  simpl. rewrite linksd_lookup; [done|].
  apply lastH_pos; [|lia].
  rewrite app_nil_r in Hgood.
  apply good_heights_pos, Forall_app in Hgood as [Hp _]. done.
Qed.

Lemma matches_repr :
  matches (repr head (l1 ++ l2)) (nxtd nil_d 0 l2) v =
  Some (bool_decide (v ∈ tkey <$> (l1 ++ l2))).
Proof.
  assert (v ∉ tkey <$> l1) as Hn1.
  { intros (t & -> & Ht)%list_elem_of_fmap.
    pose proof (proj1 (Forall_forall _ _) Hlt t Ht). simpl in *. lia. }
  destruct l2 as [|t r] eqn:El2; simpl.
  - rewrite bool_decide_eq_false_2; [done|]. by rewrite app_nil_r.
  - pose proof Hgood as [_ Hs Hh].
    apply Forall_app in Hh as [_ Hh]. apply Forall_cons in Hh as [Ht _].
    destruct (decide (0 < theight t)); [|lia]. simpl.
    pose proof (repr_tailok head _ Hgood) as Hok.
    apply tailok_app in Hok as [_ [Hc _]]. rewrite Hc. simpl.
    f_equal. rewrite fmap_app in *.
    apply StronglySorted_app_1_r, StronglySorted_inv in Hs as [_ Hall].
    destruct (decide (tkey t = v)) as [<-|Hne].
    + rewrite Z.eqb_refl. symmetry. apply bool_decide_eq_true_2.
      apply elem_of_app. right. left.
    + rewrite (proj2 (Z.eqb_neq _ _) Hne). symmetry.
      apply bool_decide_eq_false_2.
      intros [?|Hin]%elem_of_app; [done|].
      apply elem_of_cons in Hin as [?|Hin]; [done|].
      pose proof (proj1 (Forall_forall _ _) Hall v Hin).
      apply Forall_cons in Hge as [? _]. lia.
Qed.
End search_repr.

(** ** Relinking one level *)

Lemma seg_ext d d' c k hh l base :
  (∀ i, d i = d' i) → seg d c k hh l base = seg d' c k hh l base.
Proof.
  intros Hd. unfold seg. rewrite (cellsd_ext d d') by done.
  do 2 f_equal. apply linksd_ext. auto.
Qed.

Lemma seg_insert_base d c k hh l base a n :
  a ∉ c :: (taddr <$> l) →
  <[a := n]> (seg d c k hh l base) = seg d c k hh l (<[a := n]> base).
Proof.
  intros Ha. apply not_elem_of_cons in Ha as [? ?]. unfold seg.
  rewrite cellsd_insert_base by done. by apply insert_insert_ne.
Qed.

Lemma seg_delete_base d c k hh l base a :
  a ∉ c :: (taddr <$> l) →
  delete a (seg d c k hh l base) = seg d c k hh l (delete a base).
Proof.
  intros Ha. apply not_elem_of_cons in Ha as [? ?]. unfold seg.
  rewrite delete_insert_ne by done. by rewrite cellsd_delete_base.
Qed.

Lemma seg_lookup_base d c k hh l base a :
  a ∉ c :: (taddr <$> l) → seg d c k hh l base !! a = base !! a.
Proof.
  intros Ha. apply not_elem_of_cons in Ha as [? ?]. unfold seg.
  rewrite lookup_insert_ne by done. by apply cellsd_lookup_ne.
Qed.

(** The level-[j] pointer of the update-path node of level [j] is what
    lies beyond the list at that level, and writing it changes just
    that. *)
Lemma relink_step d d' head l base j c :
  NoDup (head :: (taddr <$> l)) →
  upd_pos head l j c →
  (∀ i, i ≠ j → d' i = d i) →
  get_forward (seg d head 0 16 l base) c j = Some (d j) ∧
  set_forward (seg d head 0 16 l base) c j (d' j) =
    Some (seg d' head 0 16 l base).
Proof.
  intros Hnd Hpos Hd.
  pose proof Hpos as (m & r & -> & -> & Hlow & Hh).
  assert (seg d head 0 16 (m ++ r) base !! lastA head m =
          Some (mkNode (lastK 0 m) (linksd d (lastH 16 m) r))) as Hn.
  { apply node_at; [apply lookup_insert_eq | by apply tailok_seg]. }
  unfold get_forward, set_forward. rewrite Hn. simpl. split.
  - rewrite linksd_lookup by done. by rewrite nxtd_low.
  - unfold vec_set. rewrite linksd_length.
    destruct (decide (j < lastH 16 m)); [|lia]. simpl. f_equal.
    symmetry. apply seg_relink; [|done..].
    rewrite fmap_app, app_comm_cons in Hnd.
    by apply NoDup_app in Hnd as (? & _ & _).
Qed.

(** ** Height generation: termination and range *)

Lemma Qlt_bool_iff x y : Qlt_bool x y = true ↔ (x < y)%Q.
Proof.
  unfold Qlt_bool. rewrite negb_true_iff.
  rewrite <-not_true_iff_false, Qle_bool_iff. split.
  - apply Qnot_le_lt.
  - apply Qlt_not_le.
Qed.

Lemma height_loop_spec fuel : ∀ g h,
  (h ≤ MAX_HEIGHT)%Z → Z.to_nat (MAX_HEIGHT - h) < fuel →
  ∃ k : nat,
    height_loop fuel g h =
      Some ((h + Z.of_nat k)%Z, mkRng (draws g) (cursor g + k + 1)) ∧
    (h + Z.of_nat k ≤ MAX_HEIGHT)%Z ∧
    (∀ j, j < k → (draws g (cursor g + j) < promotion_probability_)%Q) ∧
    ((h + Z.of_nat k)%Z = MAX_HEIGHT ∨
     ¬ (draws g (cursor g + k) < promotion_probability_)%Q).
Proof.
  induction fuel as [|fuel IH]; intros g h Hh Hfuel; [lia|].
  simpl.
  destruct (Qlt_bool (draws g (cursor g)) promotion_probability_) eqn:Hx;
    simpl; [destruct (h <? MAX_HEIGHT)%Z eqn:Hlt|].
  - apply Z.ltb_lt in Hlt.
    destruct (IH (mkRng (draws g) (S (cursor g))) (h + 1)%Z)
      as (k & Hk & Hle & Hlow & Hend); [lia..|].
    simpl in *. exists (S k). split_and!.
    + rewrite Hk. f_equal. f_equal; [lia|]. f_equal. lia.
    + lia.
    + intros [|j] Hj.
      * rewrite Nat.add_0_r. by apply Qlt_bool_iff.
      * replace (cursor g + S j) with (S (cursor g + j)) by lia.
        apply Hlow. lia.
    + destruct Hend as [He|He]; [left; lia|right].
      by replace (cursor g + S k) with (S (cursor g + k)) by lia.
  - apply Z.ltb_ge in Hlt. exists 0. split_and!.
    + f_equal. f_equal; [lia|]. f_equal. lia.
    + lia.
    + intros; lia.
    + left. lia.
  - exists 0. split_and!.
    + f_equal. f_equal; [lia|]. f_equal. lia.
    + lia.
    + intros; lia.
    + right. rewrite Nat.add_0_r, <-Qlt_bool_iff. by rewrite Hx.
Qed.

Lemma generateRandomHeight_nat fuel g :
  16 ≤ fuel →
  ∃ h : nat, 1 ≤ h ≤ 16 ∧
    generateRandomHeight fuel g =
      Some (Z.of_nat h, mkRng (draws g) (cursor g + h)).
Proof.
  intros Hfuel.
  destruct (height_loop_spec fuel g 1%Z) as (k & Hk & Hle & _);
    [unfold MAX_HEIGHT; lia..|].
  unfold MAX_HEIGHT in *. exists (S k). split; [lia|].
  unfold generateRandomHeight. rewrite Hk.
  f_equal. f_equal; [lia|]. f_equal. lia.
Qed.

(** ** insert on a well-formed list *)

Lemma raise_path_spec head : ∀ n i up,
  i + n ≤ length up →
  ∃ up', raise_path n (Z.of_nat i) head up = Some up' ∧
    length up' = length up ∧
    (∀ j, i ≤ j < i + n → up' !! j = Some (Some head)) ∧
    (∀ j, ¬ (i ≤ j < i + n) → up' !! j = up !! j).
Proof.
  induction n as [|n IH]; intros i up Hlen; simpl.
  - exists up. split_and!; [done..| |done]. intros; lia.
  - unfold vec_set_int, vec_set.
    destruct (decide (0 ≤ Z.of_nat i)%Z); [|lia]. rewrite Nat2Z.id.
    destruct (decide (i < length up)); [|lia]. simpl.
    replace (Z.of_nat i + 1)%Z with (Z.of_nat (S i)) by lia.
    destruct (IH (S i) (<[i := Some head]> up)) as (up' & -> & Hl & Hin & Hout).
    { rewrite length_insert. lia. }
    rewrite length_insert in Hl.
    exists up'. split_and!; [done..| |].
    + intros j Hj. destruct (decide (j = i)) as [->|].
      * rewrite Hout by lia. by apply list_lookup_insert_eq.
      * apply Hin. lia.
    + intros j Hj. rewrite Hout by lia. apply list_lookup_insert_ne. lia.
Qed.

Lemma linksd_S d j l : linksd d (S j) l = linksd d j l ++ [nxtd d j l].
Proof. unfold linksd. by rewrite seq_S, fmap_app. Qed.

Lemma links_fill d j h l :
  j < h →
  <[j := nxtd d j l]> (linksd d j l ++ replicate (h - j) None) =
  linksd d (S j) l ++ replicate (h - S j) None.
Proof.
  intros Hj. rewrite linksd_S, <-app_assoc.
  replace (h - j) with (S (h - S j)) by lia. simpl.
  rewrite insert_app_r_alt by (rewrite linksd_length; lia).
  rewrite linksd_length. by replace (j - j) with 0 by lia.
Qed.

Arguments linksd : simpl never.
Arguments ins_d : simpl never.
Arguments seg : simpl never.

Lemma splice_S n i (h : heap) up a ua nx h1 h2 :
  up !! i = Some (Some ua) →
  get_forward h ua i = Some nx →
  set_forward h a i nx = Some h1 →
  set_forward h1 ua i (Some a) = Some h2 →
  splice (S n) i h up a = splice n (S i) h2 up a.
Proof.
  intros Hu Hg H1 H2. simpl. rewrite Hu. simpl. rewrite Hg. simpl.
  rewrite H1. simpl. by rewrite H2.
Qed.

Section splice.
Context (head : positive) (l1 l2 : list tower) (a : positive) (v : Z)
        (h : nat) (up : list ptr).
Hypothesis Hnd : NoDup (head :: (taddr <$> l1)).
Hypothesis Ha : a ∉ head :: (taddr <$> l1).
Hypothesis Hup :
  ∀ i, i < h → ∃ ci, up !! i = Some (Some ci) ∧ upd_pos head l1 i ci.

Lemma ins_d_step j i : i ≠ j → ins_d a l2 (S j) i = ins_d a l2 j i.
Proof. intros Hi. unfold ins_d. repeat case_decide; (done || lia). Qed.

Lemma ins_heap_get j cj :
  upd_pos head l1 j cj →
  get_forward (ins_heap head l1 l2 a v h j) cj j = Some (nxtd nil_d j l2).
Proof.
  intros Hpos. unfold ins_heap.
  destruct (relink_step (ins_d a l2 j) (ins_d a l2 (S j)) head l1
    (<[a := mkNode v (linksd nil_d j l2 ++ replicate (h - j) None)]>
       (cellsd nil_d l2 ∅)) j cj Hnd Hpos (ins_d_step j)) as [-> _].
  unfold ins_d. case_decide; [lia | done].
Qed.

Lemma ins_heap_set_new j :
  j < h →
  set_forward (ins_heap head l1 l2 a v h j) a j (nxtd nil_d j l2) =
  Some (seg (ins_d a l2 j) head 0 16 l1
    (<[a := mkNode v (linksd nil_d (S j) l2 ++ replicate (h - S j) None)]>
       (cellsd nil_d l2 ∅))).
Proof.
  intros Hj. unfold ins_heap, set_forward.
  rewrite seg_lookup_base, lookup_insert_eq by done. simpl.
  unfold vec_set. rewrite length_app, linksd_length, length_replicate.
  destruct (decide (j < j + (h - j))); [|lia]. simpl.
  rewrite links_fill by lia.
  by rewrite seg_insert_base, insert_insert_eq by done.
Qed.

Lemma ins_heap_set_upd j cj :
  upd_pos head l1 j cj →
  set_forward (seg (ins_d a l2 j) head 0 16 l1
    (<[a := mkNode v (linksd nil_d (S j) l2 ++ replicate (h - S j) None)]>
       (cellsd nil_d l2 ∅))) cj j (Some a) =
  Some (ins_heap head l1 l2 a v h (S j)).
Proof.
  intros Hpos.
  destruct (relink_step (ins_d a l2 j) (ins_d a l2 (S j)) head l1
    (<[a := mkNode v (linksd nil_d (S j) l2 ++ replicate (h - S j) None)]>
       (cellsd nil_d l2 ∅)) j cj Hnd Hpos (ins_d_step j)) as [_ Hset].
  replace (ins_d a l2 (S j) j) with (Some a) in Hset
    by (unfold ins_d; case_decide; [done|lia]).
  done.
Qed.

Lemma splice_spec : ∀ n j,
  j + n = h →
  splice n j (ins_heap head l1 l2 a v h j) up a =
    Some (ins_heap head l1 l2 a v h h).
Proof.
  induction n as [|n IH]; intros j Hj.
  - simpl. by replace j with h by lia.
  - destruct (Hup j) as (cj & Hcj & Hpos); [lia|].
    rewrite (splice_S n j _ up a cj _ _ _ Hcj (ins_heap_get j cj Hpos)
               (ins_heap_set_new j ltac:(lia)) (ins_heap_set_upd j cj Hpos)).
    apply IH. lia.
Qed.
End splice.

Lemma ins_heap_0 head l1 l2 a v h :
  a ∉ head :: (taddr <$> l1) →
  ins_heap head l1 l2 a v h 0 =
  <[a := mkNode v (replicate h None)]> (repr head (l1 ++ l2)).
Proof.
  intros Ha. unfold ins_heap. rewrite repr_split.
  rewrite seg_insert_base by done. rewrite Nat.sub_0_r. simpl.
  apply seg_ext. intros i. unfold ins_d. case_decide; [lia | done].
Qed.

Lemma ins_heap_full head l1 l2 a v h :
  ins_heap head l1 l2 a v h h = repr head (l1 ++ mkTower a v h :: l2).
Proof.
  unfold ins_heap. rewrite repr_split. simpl.
  rewrite Nat.sub_diag. simpl. rewrite app_nil_r.
  apply seg_ext. intros i. unfold ins_d. simpl. done.
Qed.

Lemma repr_dom head l a :
  good head l → a ∈ head :: (taddr <$> l) → is_Some (repr head l !! a).
Proof.
  intros Hg Ha. apply elem_of_cons in Ha as [->|Ha].
  - unfold repr, seg. rewrite lookup_insert_eq. eauto.
  - apply list_elem_of_fmap in Ha as (t & -> & Ht).
    destruct (tailok_elem _ _ _ _ (repr_tailok head l Hg) Ht) as (fw & ->).
    eauto.
Qed.

Lemma fresh_not_in head l :
  good head l → fresh (dom (repr head l)) ∉ head :: (taddr <$> l).
Proof.
  intros Hg Hin. apply (is_fresh (dom (repr head l))).
  apply elem_of_dom. by apply repr_dom.
Qed.

Lemma good_insert head l1 l2 a v h :
  good head (l1 ++ l2) →
  a ∉ head :: (taddr <$> (l1 ++ l2)) →
  Forall (λ t, (tkey t < v)%Z) l1 →
  Forall (λ t, (v ≤ tkey t)%Z) l2 →
  v ∉ tkey <$> (l1 ++ l2) →
  1 ≤ h ≤ 16 →
  good head (l1 ++ mkTower a v h :: l2).
Proof.
  intros [Hnd Hs Hh] Ha Hlt Hge Hv Hhh. split.
  - rewrite fmap_app, fmap_cons. simpl.
    rewrite app_comm_cons, <-Permutation_middle.
    apply NoDup_cons. split; [|by rewrite <-app_comm_cons, <-fmap_app].
    by rewrite <-app_comm_cons, <-fmap_app.
  - rewrite fmap_app in *. simpl.
    apply StronglySorted_app in Hs as (H12 & Hs1 & Hs2).
    assert (Forall (Z.lt v) (tkey <$> l2)) as Hgt.
    { rewrite Forall_fmap. apply Forall_forall. intros t Ht. simpl.
      pose proof (proj1 (Forall_forall _ _) Hge t Ht) as Hle. simpl in Hle.
      destruct (decide (tkey t = v)) as [<-|]; [|lia].
      exfalso. apply Hv. apply elem_of_app. right.
      by apply list_elem_of_fmap_2. }
    apply StronglySorted_app_2; [|done|by constructor].
    intros x1 x2 (t1 & -> & Ht1)%list_elem_of_fmap Hx2.
    pose proof (proj1 (Forall_forall _ _) Hlt t1 Ht1) as Hlt1. simpl in Hlt1.
    apply elem_of_cons in Hx2 as [->|Hx2]; [done|].
    pose proof (proj1 (Forall_forall _ _) Hgt x2 Hx2). lia.
  - apply Forall_app in Hh as [? ?]. apply Forall_app. split; [done|].
    by apply Forall_cons.
Qed.

Arguments repr : simpl never.
Arguments new_node : simpl never.
Arguments splice : simpl never.
Arguments descend_path : simpl never.
Arguments descend : simpl never.
Arguments generateRandomHeight : simpl never.
Arguments raise_path : simpl never.

Lemma splice_repr head l1 l2 a v h up :
  good head (l1 ++ l2) →
  a ∉ head :: (taddr <$> l1 ++ l2) →
  (∀ i, i < h → ∃ ci, up !! i = Some (Some ci) ∧ upd_pos head l1 i ci) →
  splice h 0 (<[a := mkNode v (replicate h None)]> (repr head (l1 ++ l2)))
    up a = Some (repr head (l1 ++ mkTower a v h :: l2)).
Proof.
  intros Hg Hfresh Hup.
  assert (a ∉ head :: (taddr <$> l1)) as Ha.
  { intros Hin. apply Hfresh.
    rewrite fmap_app, app_comm_cons. apply elem_of_app. by left. }
  rewrite <-ins_heap_0, <-ins_heap_full by done.
  apply splice_spec; [|done..].
  by apply (good_nodup _ _ (good_app_l _ _ _ Hg)).
Qed.

Lemma maxh_insert l1 l2 t :
  maxh (l1 ++ t :: l2) = theight t `max` maxh (l1 ++ l2).
Proof. rewrite !maxh_app. simpl. lia. Qed.

Lemma insert_spec s l v fuel :
  Repr s l → length l < fuel → 16 ≤ fuel →
  (v ∈ (tkey <$> l) ∧ insert fuel v s = Some (false, s)) ∨
  ((v ∉ (tkey <$> l)) ∧
   ∃ l1 l2 h,
     l = l1 ++ l2 ∧ 1 ≤ h ≤ 16 ∧
     generateRandomHeight fuel (random_engine_ s) =
       Some (Z.of_nat h,
             mkRng (draws (random_engine_ s)) (cursor (random_engine_ s) + h)) ∧
     let l' := l1 ++ mkTower (fresh (dom (store s))) v h :: l2 in
     let s' := mkList (repr (sentinel_head_ s) l') (sentinel_head_ s)
                 (Z.of_nat (maxh l')) (N.of_nat (length l'))
                 (mkRng (draws (random_engine_ s))
                    (cursor (random_engine_ s) + h)) in
     insert fuel v s = Some (true, s') ∧ Repr s' l').
Proof.
  intros [Hg Hst Hh Hc] Hfuel H16.
  destruct (key_split v l (good_sorted _ _ Hg)) as (l1 & l2 & -> & Hlt & Hge).
  destruct (search_repr (sentinel_head_ s) l1 l2 v Hg Hlt Hge fuel
              (maxh (l1 ++ l2)))
    as (c & up & Hd & Hlen & Hup & Hgf); [done | done | by eapply good_maxh |].
  pose proof (matches_repr (sentinel_head_ s) l1 l2 v Hg Hlt Hge) as Hm.
  unfold insert. rewrite Hst, Hh, Nat2Z.id.
  change (Z.to_nat MAX_HEIGHT) with 16.
  rewrite Hd. simpl. rewrite Hgf. simpl. rewrite Hm. simpl.
  case_bool_decide as Hin; [by left|right].
  split; [done|].
  destruct (generateRandomHeight_nat fuel (random_engine_ s) H16)
    as (h & Hh1 & Hgen).
  exists l1, l2, h. do 3 (split; [done|]).
  set (a := fresh (dom (repr (sentinel_head_ s) (l1 ++ l2)))).
  set (l' := l1 ++ mkTower a v h :: l2).
  rewrite Hgen. simpl.
  assert (good (sentinel_head_ s) l') as Hg'.
  { apply good_insert; [done| |done..]. by apply fresh_not_in. }
  split; [|by split].
  pose proof (maxh_insert l1 l2 (mkTower a v h)) as Hmax. simpl in Hmax.
  assert ((element_count_ s + 1)%N = N.of_nat (length l')) as Hcount.
  { rewrite Hc. unfold l'. rewrite !length_app. simpl. lia. }
  destruct (Z.of_nat h >? Z.of_nat (maxh (l1 ++ l2)))%Z eqn:Hgt.
  - apply Z.gtb_lt in Hgt.
    destruct (raise_path_spec (sentinel_head_ s) (h - maxh (l1 ++ l2))
                (maxh (l1 ++ l2)) up) as (upf & Hr & _ & Hin' & Hout); [lia|].
    replace (Z.to_nat (Z.of_nat h - Z.of_nat (maxh (l1 ++ l2))))
      with (h - maxh (l1 ++ l2)) by lia.
    rewrite Hr. simpl. unfold new_node. rewrite Nat2Z.id. fold a.
    rewrite (splice_repr _ l1 l2 a v h upf); [| done | by apply fresh_not_in |].
    + simpl. rewrite Hcount. do 3 f_equal. unfold l'. rewrite Hmax. lia.
    + intros i Hi. destruct (decide (i < maxh (l1 ++ l2))) as [Hlow|Hhigh].
      * rewrite Hout by lia. by apply Hup.
      * exists (sentinel_head_ s). split; [apply Hin'; lia|].
        exists [], l1. split_and!; [done..| |simpl; lia].
        apply maxh_low. rewrite maxh_app in Hhigh. lia.
  - rewrite Z.gtb_ltb in Hgt. apply Z.ltb_ge in Hgt. simpl. unfold new_node.
    rewrite Nat2Z.id. fold a.
    rewrite (splice_repr _ l1 l2 a v h up); [| done | by apply fresh_not_in |].
    + simpl. rewrite Hcount. do 3 f_equal. unfold l'. rewrite Hmax. lia.
    + intros i Hi. apply Hup. lia.
Qed.

(** ** erase on a well-formed list *)

Arguments del_d : simpl never.
Arguments unlink : simpl never.

Lemma unlink_S n i (h : heap) up cur ua nx h1 :
  up !! i = Some (Some ua) →
  get_forward h ua i = Some (Some cur) →
  get_forward h cur i = Some nx →
  set_forward h ua i nx = Some h1 →
  unlink (S n) i h up cur = unlink n (S i) h1 up cur.
Proof.
  intros Hu Hg Hc H1. unfold unlink at 1. fold unlink.
  rewrite Hu. simpl. rewrite Hg. simpl.
  destruct (decide (Some cur = Some cur)); [|done].
  rewrite Hc. simpl. by rewrite H1.
Qed.

Lemma unlink_break n i (h : heap) up cur ua p :
  up !! i = Some (Some ua) →
  get_forward h ua i = Some p →
  p ≠ Some cur →
  unlink (S n) i h up cur = Some (h, i).
Proof.
  intros Hu Hg Hp. unfold unlink. rewrite Hu. simpl. rewrite Hg. simpl.
  by destruct (decide (p = Some cur)).
Qed.

Lemma good_middle_fresh head l1 t r2 :
  good head (l1 ++ t :: r2) →
  (taddr t ∉ head :: (taddr <$> l1)) ∧ (taddr t ∉ taddr <$> r2).
Proof.
  intros [Hnd _ _]. rewrite fmap_app, fmap_cons in Hnd.
  rewrite app_comm_cons, <-Permutation_middle in Hnd.
  apply NoDup_cons in Hnd as [Hn _]. split.
  - intros Hin. apply Hn. apply elem_of_app. by left.
  - intros Hin. apply Hn. apply elem_of_app. by right.
Qed.

Lemma good_delete head l1 t r2 :
  good head (l1 ++ t :: r2) → good head (l1 ++ r2).
Proof.
  intros [Hnd Hs Hh]. split.
  - rewrite fmap_app, fmap_cons in Hnd.
    rewrite app_comm_cons, <-Permutation_middle in Hnd.
    apply NoDup_cons in Hnd as [_ Hnd]. by rewrite fmap_app.
  - rewrite fmap_app in *. simpl in Hs.
    apply StronglySorted_app in Hs as (H12 & Hs1 & Hs2).
    apply StronglySorted_inv in Hs2 as [Hs2 _].
    apply StronglySorted_app_2; [|done..].
    intros x1 x2 Hx1 Hx2. apply H12; [done|]. by right.
  - apply Forall_app in Hh as [? [_ ?]%Forall_cons]. by apply Forall_app.
Qed.

Section unlink.
Context (head : positive) (l1 : list tower) (t : tower) (r2 : list tower)
        (up : list ptr).
Hypothesis Hgood : good head (l1 ++ t :: r2).
Hypothesis Hup :
  ∀ i, i < maxh (l1 ++ t :: r2) →
       ∃ ci, up !! i = Some (Some ci) ∧ upd_pos head l1 i ci.

Lemma unlink_nodup : NoDup (head :: (taddr <$> l1)).
Proof. apply (good_nodup _ _ (good_app_l _ _ _ Hgood)). Qed.

Lemma del_d_step j i :
  i ≠ j →
  del_d (taddr t) (theight t) r2 (S j) i = del_d (taddr t) (theight t) r2 j i.
Proof. intros Hi. unfold del_d. repeat case_decide; (done || lia). Qed.

Lemma del_heap_0 : del_heap head l1 t r2 0 = repr head (l1 ++ t :: r2).
Proof.
  unfold del_heap. rewrite repr_split. apply seg_ext. intros i.
  unfold del_d. simpl. repeat case_decide; (done || lia).
Qed.

Lemma del_heap_cur j :
  del_heap head l1 t r2 j !! taddr t =
  Some (mkNode (tkey t) (linksd nil_d (theight t) r2)).
Proof.
  unfold del_heap.
  rewrite seg_lookup_base by apply (good_middle_fresh _ _ _ _ Hgood).
  simpl. apply lookup_insert_eq.
Qed.

Lemma del_heap_get j cj :
  upd_pos head l1 j cj →
  get_forward (del_heap head l1 t r2 j) cj j =
  Some (del_d (taddr t) (theight t) r2 j j).
Proof.
  intros Hpos. unfold del_heap.
  by destruct (relink_step (del_d (taddr t) (theight t) r2 j)
    (del_d (taddr t) (theight t) r2 (S j)) head l1
    (cellsd nil_d (t :: r2) ∅) j cj unlink_nodup Hpos (del_d_step j))
    as [-> _].
Qed.

Lemma del_heap_set j cj :
  upd_pos head l1 j cj →
  set_forward (del_heap head l1 t r2 j) cj j (nxtd nil_d j r2) =
  Some (del_heap head l1 t r2 (S j)).
Proof.
  intros Hpos. unfold del_heap.
  destruct (relink_step (del_d (taddr t) (theight t) r2 j)
    (del_d (taddr t) (theight t) r2 (S j)) head l1
    (cellsd nil_d (t :: r2) ∅) j cj unlink_nodup Hpos (del_d_step j))
    as [_ Hset].
  replace (del_d (taddr t) (theight t) r2 (S j) j) with (nxtd nil_d j r2)
    in Hset by (unfold del_d; case_decide; [lia|done]).
  done.
Qed.

Lemma unlink_spec : ∀ n j,
  j ≤ theight t → j + n = maxh (l1 ++ t :: r2) →
  unlink n j (del_heap head l1 t r2 j) up (taddr t) =
    Some (del_heap head l1 t r2 (theight t), theight t).
Proof.
  assert (theight t ≤ maxh (l1 ++ t :: r2)) as Hle.
  { rewrite maxh_insert. lia. }
  induction n as [|n IH]; intros j Hj Hn.
  - unfold unlink. by replace j with (theight t) by lia.
  - destruct (Hup j) as (cj & Hcj & Hpos); [lia|].
    pose proof (del_heap_get j cj Hpos) as Hget.
    destruct (decide (j < theight t)) as [Hlt|Hge].
    + replace (del_d (taddr t) (theight t) r2 j j) with (Some (taddr t))
        in Hget by (unfold del_d; case_decide; [done|lia]).
      rewrite (unlink_S n j _ up (taddr t) cj (nxtd nil_d j r2)
                 (del_heap head l1 t r2 (S j)) Hcj Hget).
      * apply IH; lia.
      * unfold get_forward. rewrite del_heap_cur. simpl.
        by apply linksd_lookup.
      * by apply del_heap_set.
    + assert (j = theight t) as -> by lia.
      apply (unlink_break n _ _ up _ cj _ Hcj Hget).
      unfold del_d. case_decide; [lia|].
      intros Heq. apply nxtd_elem in Heq as [?|(t' & Ht' & Ha & _)]; [done|].
      apply (good_middle_fresh _ _ _ _ Hgood). rewrite <-Ha.
      by apply list_elem_of_fmap_2.
Qed.

Lemma del_heap_delete :
  delete (taddr t) (del_heap head l1 t r2 (theight t)) =
  repr head (l1 ++ r2).
Proof.
  unfold del_heap. rewrite repr_split.
  rewrite seg_delete_base by apply (good_middle_fresh _ _ _ _ Hgood).
  simpl. rewrite delete_insert_eq, delete_id.
  - apply seg_ext. intros i. unfold del_d. case_decide; [lia|done].
  - rewrite cellsd_lookup_ne by apply (good_middle_fresh _ _ _ _ Hgood).
    apply lookup_empty.
Qed.
End unlink.

Arguments get_forward : simpl never.
Arguments set_forward : simpl never.

Lemma repr_head_forward head l i :
  i < 16 → get_forward (repr head l) head i = Some (nxtd nil_d i l).
Proof.
  intros Hi. unfold get_forward, repr, seg. rewrite lookup_insert_eq.
  simpl. by apply linksd_lookup.
Qed.

Lemma trim_spec head l : ∀ n,
  maxh l ≤ n → n ≤ 16 → trim (repr head l) head n = Some (maxh l).
Proof.
  induction n as [|n IH]; intros Hn H16; simpl.
  - f_equal. lia.
  - rewrite repr_head_forward by lia. simpl.
    destruct (nxtd nil_d n l) as [a|] eqn:Hnx.
    + f_equal. destruct (decide (maxh l ≤ n)) as [Hle|]; [|lia].
      apply nxtd_nil_None in Hle. congruence.
    + apply nxtd_nil_None in Hnx. apply IH; lia.
Qed.

Arguments trim : simpl never.
Arguments matches : simpl never.

Lemma unlink_repr head l1 t r2 up :
  good head (l1 ++ t :: r2) →
  (∀ i, i < maxh (l1 ++ t :: r2) →
        ∃ ci, up !! i = Some (Some ci) ∧ upd_pos head l1 i ci) →
  unlink (maxh (l1 ++ t :: r2)) 0 (repr head (l1 ++ t :: r2)) up (taddr t) =
    Some (del_heap head l1 t r2 (theight t), theight t).
Proof.
  intros Hg Hup. rewrite <-(del_heap_0 head l1 t r2).
  apply unlink_spec; [done..|lia|done].
Qed.

Lemma found_first l1 t r2 v :
  StronglySorted Z.lt (tkey <$> l1 ++ t :: r2) →
  Forall (λ t, (tkey t < v)%Z) l1 →
  Forall (λ t, (v ≤ tkey t)%Z) (t :: r2) →
  v ∈ tkey <$> l1 ++ t :: r2 →
  tkey t = v.
Proof.
  intros Hs Hlt Hge Hin. rewrite fmap_app in *.
  apply StronglySorted_app_1_r in Hs. simpl in Hs.
  apply StronglySorted_inv in Hs as [_ Hall].
  apply Forall_cons in Hge as [Hge _].
  apply elem_of_app in Hin as [Hin|Hin].
  - apply list_elem_of_fmap in Hin as (t' & -> & Ht').
    pose proof (proj1 (Forall_forall _ _) Hlt t' Ht'). simpl in *. lia.
  - simpl in Hin. apply elem_of_cons in Hin as [?|Hin]; [done|].
    pose proof (proj1 (Forall_forall _ _) Hall v Hin). lia.
Qed.

Lemma erase_path_spec s l v fuel :
  Repr s l → length l < fuel →
  ((v ∉ (tkey <$> l)) ∧ erase fuel v s = Some (false, s)) ∨
  (∃ l1 t r2 c up,
     l = l1 ++ t :: r2 ∧ tkey t = v ∧
     descend_path fuel (store s) v (Z.to_nat (current_height_ s))
       (sentinel_head_ s) (replicate (Z.to_nat MAX_HEIGHT) None)
       = Some (c, up) ∧
     get_forward (store s) c 0 = Some (Some (taddr t)) ∧
     (∀ i, i < maxh l →
        ∃ ci, up !! i = Some (Some ci) ∧ upd_pos (sentinel_head_ s) l1 i ci) ∧
     let s' := mkList (repr (sentinel_head_ s) (l1 ++ r2)) (sentinel_head_ s)
                 (Z.of_nat (maxh (l1 ++ r2))) (N.of_nat (length (l1 ++ r2)))
                 (random_engine_ s) in
     erase fuel v s = Some (true, s') ∧ Repr s' (l1 ++ r2)).
Proof.
  intros [Hg Hst Hh Hc] Hfuel.
  unfold erase, empty. destruct (element_count_ s =? 0)%N eqn:He.
  { apply N.eqb_eq in He. left.
    assert (l = []) as -> by (destruct l; simpl in *; [done | lia]).
    split; [apply not_elem_of_nil | done]. }
  destruct (key_split v l (good_sorted _ _ Hg)) as (l1 & l2 & -> & Hlt & Hge).
  destruct (search_repr (sentinel_head_ s) l1 l2 v Hg Hlt Hge fuel
              (maxh (l1 ++ l2)))
    as (c & up & Hd & Hlen & Hup & Hgf); [done | done | by eapply good_maxh |].
  pose proof (matches_repr (sentinel_head_ s) l1 l2 v Hg Hlt Hge) as Hm.
  rewrite Hst, Hh, Nat2Z.id.
  change (Z.to_nat MAX_HEIGHT) with 16.
  rewrite Hd. simpl. rewrite Hgf. simpl. rewrite Hm. simpl.
  destruct l2 as [|t r2].
  { left. simpl. unfold nil_d. split; [|done].
    simpl in Hm. unfold nil_d, matches in Hm.
    injection Hm as Hm. symmetry in Hm.
    by apply bool_decide_eq_false_1 in Hm. }
  pose proof (good_heights _ _ Hg) as Hhs.
  apply Forall_app in Hhs as [_ [Ht _]%Forall_cons].
  simpl in Hgf. simpl. destruct (decide (0 < theight t)); [|lia].
  case_bool_decide as Hin; [right|by left].
  pose proof (found_first l1 t r2 v (good_sorted _ _ Hg) Hlt Hge Hin) as Hk.
  exists l1, t, r2, c, up. do 5 (split; [done|]).
  assert (good (sentinel_head_ s) (l1 ++ r2)) as Hg'
    by (by eapply good_delete).
  split; [|by split].
  rewrite (unlink_repr _ l1 t r2 up Hg Hup). simpl.
  rewrite del_heap_cur by done. simpl.
  rewrite del_heap_delete by done.
  pose proof (maxh_insert l1 r2 t) as Hmax.
  unfold trim_height.
  destruct (0 <? Z.of_nat (maxh (l1 ++ t :: r2)))%Z eqn:Hpos;
    [|apply Z.ltb_ge in Hpos; lia].
  rewrite Nat2Z.id, trim_spec; [|lia|by eapply good_maxh]. simpl.
  do 3 f_equal. rewrite Hc, !length_app. simpl. lia.
Qed.

Lemma erase_spec s l v fuel :
  Repr s l → length l < fuel →
  ((v ∉ (tkey <$> l)) ∧ erase fuel v s = Some (false, s)) ∨
  (∃ l1 t r2,
     l = l1 ++ t :: r2 ∧ tkey t = v ∧
     let s' := mkList (repr (sentinel_head_ s) (l1 ++ r2)) (sentinel_head_ s)
                 (Z.of_nat (maxh (l1 ++ r2))) (N.of_nat (length (l1 ++ r2)))
                 (random_engine_ s) in
     erase fuel v s = Some (true, s') ∧ Repr s' (l1 ++ r2)).
Proof.
  intros HR Hfuel.
  destruct (erase_path_spec s l v fuel HR Hfuel)
    as [?|(l1 & t & r2 & c & up & ? & ? & _ & _ & _ & ?)]; [by left|right].
  by exists l1, t, r2.
Qed.

(** ** contains, find and iteration on a well-formed list *)

Lemma search_state s l v fuel :
  Repr s l → length l < fuel →
  ∃ l1 l2 c,
    l = l1 ++ l2 ∧
    Forall (λ t, (tkey t < v)%Z) l1 ∧ Forall (λ t, (v ≤ tkey t)%Z) l2 ∧
    descend fuel (store s) v (Z.to_nat (current_height_ s)) (sentinel_head_ s)
      = Some c ∧
    get_forward (store s) c 0 = Some (nxtd nil_d 0 l2) ∧
    matches (store s) (nxtd nil_d 0 l2) v =
      Some (bool_decide (v ∈ tkey <$> l)).
Proof.
  intros [Hg Hst Hh Hc] Hfuel.
  destruct (key_split v l (good_sorted _ _ Hg)) as (l1 & l2 & -> & Hlt & Hge).
  destruct (search_repr (sentinel_head_ s) l1 l2 v Hg Hlt Hge fuel
              (maxh (l1 ++ l2)))
    as (c & up & Hd & Hlen & Hup & Hgf); [done | done | by eapply good_maxh |].
  exists l1, l2, c. rewrite Hst, Hh, Nat2Z.id. split_and!; [done..| | |].
  - by apply descend_path_fst in Hd.
  - done.
  - by apply matches_repr.
Qed.

Lemma contains_spec s l v fuel :
  Repr s l → length l < fuel →
  contains fuel v s = Some (bool_decide (v ∈ tkey <$> l)).
Proof.
  intros HR Hfuel.
  destruct (search_state s l v fuel HR Hfuel)
    as (l1 & l2 & c & _ & _ & _ & Hd & Hgf & Hm).
  unfold contains. rewrite Hd. simpl. rewrite Hgf. simpl. done.
Qed.

Lemma find_spec s l v fuel :
  Repr s l → length l < fuel →
  ∃ it, find fuel v s = Some it ∧
    match it with
    | Some a => v ∈ tkey <$> l ∧ ∃ fw, store s !! a = Some (mkNode v fw)
    | None => v ∉ tkey <$> l
    end.
Proof.
  intros HR Hfuel.
  destruct (search_state s l v fuel HR Hfuel)
    as (l1 & l2 & c & -> & Hlt & Hge & Hd & Hgf & Hm).
  unfold find. rewrite Hd. simpl. rewrite Hgf. simpl. rewrite Hm. simpl.
  eexists. split; [done|].
  destruct HR as [Hg Hst _ _].
  case_bool_decide as Hin; [|done].
  destruct l2 as [|t r2].
  { unfold matches in Hm. simpl in Hm. unfold nil_d in Hm. done. }
  pose proof (good_heights _ _ Hg) as Hhs.
  apply Forall_app in Hhs as [_ [Ht _]%Forall_cons].
  simpl. destruct (decide (0 < theight t)); [|lia].
  split; [done|].
  pose proof (found_first l1 t r2 v (good_sorted _ _ Hg) Hlt Hge Hin) as <-.
  pose proof (repr_tailok _ _ Hg) as Hok.
  apply tailok_app in Hok as [_ [Hc _]]. rewrite Hst. eauto.
Qed.

Lemma traverse_spec (H : heap) l : ∀ fuel,
  tailok H nil_d l → Forall (λ t, 1 ≤ theight t) l → length l < fuel →
  traverse fuel H (nxtd nil_d 0 l) = Some (tkey <$> l).
Proof.
  induction l as [|t r IH]; intros fuel Hok Hh Hfuel;
    (destruct fuel as [|fuel]; [simpl in Hfuel; lia|]).
  - done.
  - destruct Hok as [Ht Hok]. apply Forall_cons in Hh as [Hpos Hh].
    simpl. destruct (decide (0 < theight t)); [|lia].
    simpl. rewrite Ht. simpl. unfold get_forward. rewrite Ht. simpl.
    rewrite linksd_lookup by done. simpl.
    rewrite IH; [done..|]. simpl in Hfuel. lia.
Qed.

Lemma begin_spec s l : Repr s l → begin_ s = Some (nxtd nil_d 0 l).
Proof.
  intros [_ Hst _ _]. unfold begin_. rewrite Hst.
  apply repr_head_forward. lia.
Qed.

Lemma to_list_spec s l fuel :
  Repr s l → length l < fuel → to_list fuel s = Some (tkey <$> l).
Proof.
  intros HR Hfuel. unfold to_list. rewrite (begin_spec s l HR). simpl.
  destruct HR as [Hg -> _ _].
  apply traverse_spec; [by apply repr_tailok | by eapply good_heights_pos | done].
Qed.

(** ** clear and construction *)

Lemma free_chain_spec head hn l : ∀ fuel,
  NoDup (head :: (taddr <$> l)) → Forall (λ t, 1 ≤ theight t) l →
  length l < fuel →
  free_chain fuel (<[head := hn]> (cellsd nil_d l ∅)) (nxtd nil_d 0 l) =
    Some (<[head := hn]> ∅).
Proof.
  induction l as [|t r IH]; intros fuel Hnd Hh Hfuel;
    (destruct fuel as [|fuel]; [simpl in Hfuel; lia|]).
  - done.
  - apply Forall_cons in Hh as [Hpos Hh].
    apply NoDup_cons in Hnd as [Hhead Hnd].
    apply not_elem_of_cons in Hhead as [Hne Hhead].
    apply NoDup_cons in Hnd as [Ht Hnd].
    simpl. destruct (decide (0 < theight t)); [|lia].
    unfold get_forward.
    rewrite lookup_insert_ne, lookup_insert_eq by done. simpl.
    rewrite linksd_lookup by done. simpl.
    rewrite delete_insert_ne, delete_insert_eq, delete_id by
      (done || (rewrite cellsd_lookup_ne by done; apply lookup_empty)).
    apply IH; [|done|simpl in Hfuel; lia].
    apply NoDup_cons. by split.
Qed.

Lemma Repr_cleared s l : Repr s l → Repr (cleared s) [].
Proof.
  intros [[Hnd _ _] _ _ _]. split; [split|..]; try done; simpl.
  - apply NoDup_cons in Hnd as [_ _]. apply NoDup_singleton.
  - constructor.
Qed.

Lemma clear_spec s l fuel :
  Repr s l → length l < fuel → clear fuel s = Some (cleared s).
Proof.
  intros HR Hfuel. unfold clear.
  pose proof (begin_spec s l HR) as Hb. unfold begin_ in Hb. rewrite Hb.
  destruct HR as [Hg Hst _ _]. simpl. rewrite Hst. unfold repr, seg.
  rewrite (free_chain_spec _ _ l fuel);
    [|apply Hg|by eapply good_heights_pos|done].
  simpl. unfold fill_null. rewrite lookup_insert_eq. simpl.
  by rewrite insert_insert_eq.
Qed.

Lemma Repr_new seed : Repr (new_skip_list seed) [].
Proof.
  split; [split|..]; try done; simpl.
  - apply NoDup_singleton.
  - constructor.
Qed.

(** ** Node heights *)

Lemma cellsd_max_height l :
  NoDup (taddr <$> l) →
  map_fold (λ _ n m, node_height n `max` m) 0 (cellsd nil_d l ∅) = maxh l.
Proof.
  induction l as [|t r IH]; intros Hnd; simpl.
  - apply map_fold_empty.
  - apply NoDup_cons in Hnd as [Ht Hnd].
    rewrite map_fold_insert_L.
    + rewrite IH by done. unfold node_height. simpl.
      by rewrite linksd_length.
    + intros. lia.
    + rewrite cellsd_lookup_ne by done. apply lookup_empty.
Qed.

Lemma max_node_height_spec s l : Repr s l → max_node_height s = maxh l.
Proof.
  intros [[Hnd _ _] Hst _ _]. unfold max_node_height, real_nodes.
  apply NoDup_cons in Hnd as [Hh Hnd].
  rewrite Hst. unfold repr, seg. rewrite delete_insert_eq, delete_id.
  - by apply cellsd_max_height.
  - rewrite cellsd_lookup_ne by done. apply lookup_empty.
Qed.

(** ** Operation sequences on a well-formed list *)

Lemma Repr_size s l : Repr s l → N.to_nat (size s) = length l.
Proof. intros [_ _ _ Hc]. unfold size. rewrite Hc. lia. Qed.

Lemma sorted_middle_notin head l1 t r2 :
  good head (l1 ++ t :: r2) → tkey t ∉ tkey <$> l1 ++ r2.
Proof.
  intros [_ Hs _]. rewrite fmap_app in *. simpl in Hs.
  apply StronglySorted_app in Hs as (H12 & _ & Hs2).
  apply StronglySorted_inv in Hs2 as [_ Hall].
  intros [Hin|Hin]%elem_of_app.
  - specialize (H12 (tkey t) (tkey t) Hin ltac:(left)). lia.
  - pose proof (proj1 (Forall_forall _ _) Hall _ Hin). lia.
Qed.

Lemma good_keys_sorted head l : good head l → StronglySorted Z.lt (tkey <$> l).
Proof. by intros [_ ? _]. Qed.

Lemma sorted_lt_NoDup (ks : list Z) : StronglySorted Z.lt ks → NoDup ks.
Proof.
  induction 1 as [|k ks _ IH Hall]; constructor; [|done].
  intros Hin. pose proof (proj1 (Forall_forall _ _) Hall _ Hin). lia.
Qed.

Lemma apply_op_spec s l o fuel :
  Repr s l → length l < fuel → 16 ≤ fuel →
  ∃ s' l', apply_op fuel o s = Some s' ∧ Repr s' l' ∧
    length l' ≤ S (length l) ∧
    list_to_set (tkey <$> l') =@{gset Z} present [o] (list_to_set (tkey <$> l)).
Proof.
  intros HR Hfuel H16. destruct o as [v|v|]; simpl.
  - destruct (insert_spec s l v fuel HR Hfuel H16)
      as [[Hin ->]|[Hin (l1 & l2 & h & -> & Hh & _ & -> & HR')]].
    + exists s, l. split_and!; [done..|lia|]. set_solver.
    + eexists _, _. split_and!; [done|apply HR'| |].
      * rewrite !length_app. simpl. lia.
      * rewrite !fmap_app, fmap_cons, !list_to_set_app_L, list_to_set_cons.
        simpl. set_solver.
  - destruct (erase_spec s l v fuel HR Hfuel)
      as [[Hin ->]|(l1 & t & r2 & -> & <- & -> & HR')].
    + exists s, l. split_and!; [done..|lia|]. set_solver.
    + pose proof (sorted_middle_notin _ _ _ _ (repr_good _ _ HR)) as Hn.
      eexists _, _. split_and!; [done|apply HR'| |].
      * rewrite !length_app. simpl. lia.
      * rewrite fmap_app in Hn.
        rewrite !fmap_app, fmap_cons, !list_to_set_app_L, list_to_set_cons.
        set_solver.
  - rewrite (clear_spec s l fuel HR Hfuel).
    exists (cleared s), []. split_and!; [done|by eapply Repr_cleared|simpl; lia|].
    done.
Qed.

Lemma run_spec ops : ∀ s l fuel,
  Repr s l → length l + length ops < fuel → 16 ≤ fuel →
  ∃ s' l', run fuel ops s = Some s' ∧ Repr s' l' ∧
    length l' ≤ length l + length ops ∧
    list_to_set (tkey <$> l') =@{gset Z}
      present ops (list_to_set (tkey <$> l)).
Proof.
  induction ops as [|o ops IH]; intros s l fuel HR Hfuel H16; simpl in *.
  - exists s, l. split_and!; [done..|lia|done].
  - destruct (apply_op_spec s l o fuel HR) as (s1 & l1 & -> & HR1 & Hl1 & Hk1);
      [lia..|].
    destruct (IH s1 l1 fuel HR1) as (s' & l' & Hrun & HR' & Hl' & Hk');
      [lia..|].
    exists s', l'. simpl. split_and!; [done..|lia|].
    rewrite Hk', Hk1. by destruct o.
Qed.

(** ** Well-formedness is preserved *)

Lemma wf_new seed : wf (new_skip_list seed).
Proof. exists []. apply Repr_new. Qed.

Lemma wf_run seed ops fuel :
  length ops < fuel → 16 ≤ fuel →
  ∃ s, run fuel ops (new_skip_list seed) = Some s ∧ wf s ∧
       N.to_nat (size s) ≤ length ops.
Proof.
  intros Hfuel H16.
  destruct (run_spec ops (new_skip_list seed) [] fuel (Repr_new seed))
    as (s & l & Hrun & HR & Hl & _); [simpl; lia..|].
  exists s. split_and!; [done|by exists l|].
  rewrite (Repr_size s l HR). simpl in Hl. lia.
Qed.

Lemma contains_nil s v fuel : Repr s [] → contains fuel v s = Some false.
Proof.
  intros [_ Hst Hh _]. unfold contains. rewrite Hh, Hst. simpl.
  unfold descend. simpl. by rewrite repr_head_forward by lia.
Qed.

Lemma find_nil s v fuel : Repr s [] → find fuel v s = Some (end_ s).
Proof.
  intros [_ Hst Hh _]. unfold find. rewrite Hh, Hst. simpl.
  unfold descend. simpl. by rewrite repr_head_forward by lia.
Qed.

Lemma Repr_nil_cleared s : Repr s [] → cleared s = s.
Proof.
  intros [_ Hst Hh Hc]. destruct s as [st hd ch n g]. simpl in *.
  unfold cleared. simpl. by rewrite Hst, Hh, Hc.
Qed.

(** Well-formedness of a concrete state, by evaluation: the list of
    towers is given and the heap it denotes is computed. *)
Ltac wf_by_eval l :=
  exists l; split;
  [ split;
    [ vm_compute; by apply (bool_decide_eq_true_1 _)
    | simpl; repeat constructor; lia
    | repeat constructor; simpl; lia ]
  | vm_compute; reflexivity
  | reflexivity
  | reflexivity ].

Lemma wf_demo_state : wf demo_state.
Proof. wf_by_eval [mkTower 2 10 2; mkTower 3 20 2]. Qed.

Lemma wf_new_coin : wf (new_skip_list coin).
Proof. wf_by_eval (@nil tower). Qed.

Lemma wf_stepped_state : wf stepped_state.
Proof. wf_by_eval [mkTower 2 10 4; mkTower 3 20 2]. Qed.

(** The run of the demo driver (section 8 of the specification):
    insert(10), insert(20), insert(10) -> false, contains(20) -> true,
    contains(30) -> false, erase(10) -> true, erase(10) -> false,
    iterate -> [20]. *)
Example demo_driver :
  (let s := new_skip_list coin in
   '(b1, s) ← insert 20 10 s;
   '(b2, s) ← insert 20 20 s;
   '(b3, s) ← insert 20 10 s;
   c1 ← contains 20 20 s;
   c2 ← contains 20 30 s;
   '(e1, s) ← erase 20 10 s;
   '(e2, s) ← erase 20 10 s;
   keys ← to_list 20 s;
   Some (b1, b2, b3, c1, c2, e1, e2, keys, size s))
  = Some (true, true, false, true, false, true, false, [20%Z], 1%N).
Proof. vm_compute. reflexivity. Qed.

(** * Properties of the container *)

(** C8. Height generation terminates for every stream of draws and returns
    a height in [1, 16]: the height is 1 plus the number of leading draws
    below the promotion probability 1/2, and the loop stops at the first
    draw that is not below 1/2 or when the height has reached
    [MAX_HEIGHT = 16]. *)
Theorem generateRandomHeight_terminates_in_range (g : rng) (fuel : nat) :
  16 ≤ fuel →
  MAX_HEIGHT = 16%Z ∧ (promotion_probability_ == 1 # 2)%Q ∧
  ∃ k : nat,
    generateRandomHeight fuel g =
      Some ((1 + Z.of_nat k)%Z, mkRng (draws g) (cursor g + k + 1)) ∧
    (1 ≤ 1 + Z.of_nat k ≤ MAX_HEIGHT)%Z ∧
    (∀ j, j < k → (draws g (cursor g + j) < promotion_probability_)%Q) ∧
    ((1 + Z.of_nat k)%Z = MAX_HEIGHT ∨
     ¬ (draws g (cursor g + k) < promotion_probability_)%Q).
Proof.
  intros Hfuel. split; [done|]. split; [done|].
  destruct (height_loop_spec fuel g 1%Z) as (k & Hk & Hle & Hlow & Hend);
    [unfold MAX_HEIGHT; lia..|].
  exists k. split_and!; [done|lia|done..].
Qed.

Lemma generateRandomHeight_terminates_in_range_witness :
  16 ≤ 16 ∧
  ∃ k : nat,
    generateRandomHeight 16 coin =
      Some ((1 + Z.of_nat k)%Z, mkRng (draws coin) (cursor coin + k + 1)) ∧
    (1 ≤ 1 + Z.of_nat k ≤ MAX_HEIGHT)%Z.
Proof.
  split; [lia|].
  destruct (generateRandomHeight_terminates_in_range coin 16)
    as (_ & _ & k & Hk & Hr & _); [lia|].
  exists k. by split.
Defined.

(** C10. Advancing an end iterator is a safe no-op: prefix and postfix
    [operator++] on an iterator equal to [end()] succeed in every heap and
    leave it equal to [end()]; only dereferencing the end position
    faults. *)
Theorem increment_end_is_noop (s : skip_list) (h : heap) :
  incr h (end_ s) = Some (end_ s) ∧
  post_incr h (end_ s) = Some (end_ s, end_ s) ∧
  deref h (end_ s) = None.
Proof. done. Qed.

(** C6. On an empty list [erase] returns false at once, without any
    traversal (no fuel is needed and the heap is not read), [contains]
    returns false, and [begin()] equals [end()]. *)
Theorem empty_list_safety (s : skip_list) (v : Z) (fuel : nat) :
  size s = 0%N →
  erase fuel v s = Some (false, s) ∧
  (wf s → contains fuel v s = Some false ∧ begin_ s = Some (end_ s)).
Proof.
  intros Hsize. split.
  - unfold erase, empty. unfold size in Hsize. by rewrite Hsize.
  - intros [l HR]. pose proof (Repr_size s l HR) as Hl.
    rewrite Hsize in Hl. destruct l; [|done].
    split; [by apply contains_nil | by rewrite (begin_spec s [] HR)].
Qed.

Lemma empty_list_safety_witness :
  size (new_skip_list coin) = 0%N ∧
  erase 0 7 (new_skip_list coin) = Some (false, new_skip_list coin) ∧
  contains 0 7 (new_skip_list coin) = Some false ∧
  begin_ (new_skip_list coin) = Some (end_ (new_skip_list coin)).
Proof.
  split; [reflexivity|].
  destruct (empty_list_safety (new_skip_list coin) 7 0) as [He Hc];
    [reflexivity|].
  split; [exact He|]. apply Hc. apply wf_new_coin.
Defined.

(** C7. [clear()] empties any list: afterwards the size is 0, [empty()]
    holds, [begin()] equals [end()], the store holds the sentinel only and
    all 16 of its forward links are null, [current_height_] is 0, and no
    key is found by [contains] or [find].  Clearing an empty list changes
    nothing. *)
Theorem clear_resets_state (s : skip_list) (fuel : nat) :
  wf s → N.to_nat (size s) < fuel →
  ∃ s', clear fuel s = Some s' ∧
    size s' = 0%N ∧ empty s' = true ∧ begin_ s' = Some (end_ s') ∧
    store s' = {[ sentinel_head_ s' := mkNode 0 (replicate 16 None) ]} ∧
    current_height_ s' = 0%Z ∧
    (∀ v f, contains f v s' = Some false ∧ find f v s' = Some (end_ s')) ∧
    wf s' ∧ (size s = 0%N → s' = s).
Proof.
  intros [l HR] Hfuel. rewrite (Repr_size s l HR) in Hfuel.
  pose proof (Repr_cleared s l HR) as HR'.
  exists (cleared s). split_and!; try done.
  - by apply clear_spec with l.
  - by rewrite (begin_spec _ [] HR').
  - intros v f. split; [by apply contains_nil | by apply find_nil].
  - by exists [].
  - intros Hsize. pose proof (Repr_size s l HR) as Hl. rewrite Hsize in Hl.
    destruct l; [|done]. by apply Repr_nil_cleared.
Qed.

Lemma clear_resets_state_witness :
  wf demo_state ∧ N.to_nat (size demo_state) < 20 ∧
  ∃ s', clear 20 demo_state = Some s' ∧
    size s' = 0%N ∧ empty s' = true ∧ begin_ s' = Some (end_ s') ∧
    store s' = {[ sentinel_head_ s' := mkNode 0 (replicate 16 None) ]} ∧
    current_height_ s' = 0%Z ∧
    (∀ v f, contains f v s' = Some false ∧ find f v s' = Some (end_ s')) ∧
    wf s' ∧ (size demo_state = 0%N → s' = demo_state).
Proof.
  split; [apply wf_demo_state|]. split; [vm_compute; lia|].
  apply (clear_resets_state demo_state 20);
    [apply wf_demo_state | vm_compute; lia].
Defined.

(** C9. [find(v)] returns a non-end position exactly when [contains(v)]
    returns true; a non-end position dereferences to [v], and when [v] is
    absent [find(v)] is [end()]. *)
Theorem find_agrees_with_contains (s : skip_list) (v : Z) (fuel : nat) :
  wf s → N.to_nat (size s) < fuel →
  ∃ it b, find fuel v s = Some it ∧ contains fuel v s = Some b ∧
    (it ≠ end_ s ↔ b = true) ∧
    (it ≠ end_ s → deref (store s) it = Some v) ∧
    (b = false → it = end_ s).
Proof.
  intros [l HR] Hfuel. rewrite (Repr_size s l HR) in Hfuel.
  destruct (find_spec s l v fuel HR Hfuel) as (it & Hfind & Hit).
  exists it, (bool_decide (v ∈ tkey <$> l)).
  split; [done|]. split; [by apply contains_spec|].
  unfold end_. destruct it as [a|].
  - destruct Hit as [Hin (fw & Ha)]. split_and!.
    + split; [intros _|done]. by apply bool_decide_eq_true_2.
    + intros _. simpl. by rewrite Ha.
    + intros Hb. apply bool_decide_eq_false_1 in Hb. done.
  - split_and!; try done.
    split; [done|]. intros Hb. by apply bool_decide_eq_true_1 in Hb.
Qed.

Lemma find_agrees_with_contains_witness :
  wf demo_state ∧ N.to_nat (size demo_state) < 20 ∧
  ∃ it b, find 20 20 demo_state = Some it ∧
    contains 20 20 demo_state = Some b ∧
    (it ≠ end_ demo_state ↔ b = true) ∧
    (it ≠ end_ demo_state → deref (store demo_state) it = Some 20%Z) ∧
    (b = false → it = end_ demo_state).
Proof.
  split; [apply wf_demo_state|]. split; [vm_compute; lia|].
  apply (find_agrees_with_contains demo_state 20 20);
    [apply wf_demo_state | vm_compute; lia].
Defined.

(** C4. If [erase(k)] returns true then [k] was present, afterwards
    [contains(k)] is false and the size has decreased by exactly 1; if it
    returns false the whole state is unchanged. *)
Theorem erase_contract (s : skip_list) (v : Z) (fuel : nat) :
  wf s → N.to_nat (size s) < fuel →
  ∃ b s', erase fuel v s = Some (b, s') ∧ contains fuel v s = Some b ∧
    (b = true →
       wf s' ∧ contains fuel v s' = Some false ∧ (size s' + 1)%N = size s) ∧
    (b = false → s' = s).
Proof.
  intros [l HR] Hfuel. pose proof (Repr_size s l HR) as Hsz.
  rewrite Hsz in Hfuel.
  rewrite (contains_spec s l v fuel HR Hfuel).
  destruct (erase_spec s l v fuel HR Hfuel)
    as [[Hin ->]|(l1 & t & r2 & -> & <- & -> & HR')].
  - exists false, s. split_and!; try done.
    by rewrite bool_decide_eq_false_2.
  - eexists true, _. split_and!; try done.
    + f_equal. apply bool_decide_eq_true_2.
      rewrite fmap_app, fmap_cons. apply elem_of_app. right. left.
    + intros _. split_and!.
      * by eexists.
      * rewrite (contains_spec _ _ (tkey t) fuel HR').
        -- f_equal. apply bool_decide_eq_false_2.
           by eapply sorted_middle_notin, repr_good.
        -- rewrite length_app in *. simpl in Hfuel. lia.
      * unfold size. simpl. destruct HR as [_ _ _ ->].
        rewrite !length_app. simpl. lia.
Qed.

Lemma erase_contract_witness :
  wf demo_state ∧ N.to_nat (size demo_state) < 20 ∧
  ∃ b s', erase 20 10 demo_state = Some (b, s') ∧
    contains 20 10 demo_state = Some b ∧
    (b = true →
       wf s' ∧ contains 20 10 s' = Some false ∧
       (size s' + 1)%N = size demo_state) ∧
    (b = false → s' = demo_state).
Proof.
  split; [apply wf_demo_state|]. split; [vm_compute; lia|].
  apply (erase_contract demo_state 10 20);
    [apply wf_demo_state | vm_compute; lia].
Defined.




(** C1. After any sequence of operations on a freshly constructed
    container, iterating from [begin()] to [end()] yields the keys in
    strictly increasing order, without duplicates, and the keys visited
    are exactly the keys present: those inserted and not subsequently
    erased. *)
Theorem iteration_sorted_and_complete (seed : rng) (ops : list op)
    (fuel : nat) :
  length ops + 16 < fuel →
  ∃ s keys, run fuel ops (new_skip_list seed) = Some s ∧
    to_list fuel s = Some keys ∧
    StronglySorted Z.lt keys ∧ NoDup keys ∧
    (∀ k, k ∈ keys ↔ k ∈ present ops ∅) ∧
    (∀ k, contains fuel k s = Some (bool_decide (k ∈ present ops ∅))).
Proof.
  intros Hfuel.
  destruct (run_spec ops (new_skip_list seed) [] fuel (Repr_new seed))
    as (s & l & Hrun & HR & Hl & Hkeys); [simpl; lia..|].
  simpl in Hl, Hkeys.
  assert (∀ k, k ∈ tkey <$> l ↔ k ∈ present ops ∅) as Hiff.
  { intros k. rewrite <-Hkeys. by rewrite elem_of_list_to_set. }
  exists s, (tkey <$> l). split_and!; [done| | | |done|].
  - apply to_list_spec; [done|lia].
  - by eapply good_keys_sorted, repr_good.
  - by eapply sorted_lt_NoDup, good_keys_sorted, repr_good.
  - intros k. rewrite (contains_spec s l k fuel HR) by lia.
    f_equal. apply bool_decide_ext, Hiff.
Qed.

Lemma iteration_sorted_and_complete_witness :
  length [Insert 20; Insert 10; Insert 30; Insert 10; Erase 20] + 16 < 30 ∧
  ∃ s keys,
    run 30 [Insert 20; Insert 10; Insert 30; Insert 10; Erase 20]
      (new_skip_list coin) = Some s ∧
    to_list 30 s = Some keys ∧
    StronglySorted Z.lt keys ∧ NoDup keys.
Proof.
  split; [simpl; lia|].
  destruct (iteration_sorted_and_complete coin
              [Insert 20; Insert 10; Insert 30; Insert 10; Erase 20] 30)
    as (s & keys & Hrun & Hl & Hs & Hn & _); [simpl; lia|].
  exists s, keys. by split_and!.
Defined.

(** X14. When every allocation succeeds: after construction and after every
    insert, erase and clear, [current_height_] is the maximum height of
    the real nodes (0 when there are none): it is the least level at which
    the sentinel has no successor, and a successful insert raises it to
    the height of the new node when that is taller. *)
Theorem current_height_is_max_node_height (seed : rng) (ops : list op)
    (fuel : nat) :
  length ops + 16 < fuel →
  ∃ s, run fuel ops (new_skip_list seed) = Some s ∧
    current_height_ s = Z.of_nat (max_node_height s) ∧
    (real_nodes s = ∅ → current_height_ s = 0%Z) ∧
    (∀ i, i < 16 →
       get_forward (store s) (sentinel_head_ s) i = Some None ↔
       (current_height_ s ≤ Z.of_nat i)%Z) ∧
    (∀ v, ∃ b s1, insert fuel v s = Some (b, s1) ∧
       current_height_ s1 = Z.of_nat (max_node_height s1) ∧
       (b = true → ∃ h g,
          generateRandomHeight fuel (random_engine_ s) = Some (h, g) ∧
          current_height_ s1 = Z.max (current_height_ s) h)).
Proof.
  intros Hfuel.
  destruct (run_spec ops (new_skip_list seed) [] fuel (Repr_new seed))
    as (s & l & Hrun & HR & Hl & _); [simpl; lia..|].
  simpl in Hl. pose proof (max_node_height_spec s l HR) as Hmax.
  exists s. split; [done|].
  assert (current_height_ s = Z.of_nat (max_node_height s)) as Hcur.
  { rewrite Hmax. apply HR. }
  split; [done|]. split_and!.
  - intros Hempty. rewrite Hcur. unfold max_node_height. rewrite Hempty.
    by rewrite map_fold_empty.
  - intros i Hi. destruct HR as [_ -> -> _].
    rewrite repr_head_forward by done.
    split.
    + intros [= Hnone]. apply nxtd_nil_None in Hnone. lia.
    + intros Hle. f_equal. apply nxtd_nil_None. lia.
  - intros v.
    destruct (insert_spec s l v fuel HR)
      as [[Hin ->]|[Hin (l1 & l2 & h & -> & Hh & Hgen & -> & HR')]]; [lia..| |].
    + exists false, s. by split_and!.
    + eexists true, _. split; [done|].
      rewrite (max_node_height_spec _ _ HR'). split; [done|].
      intros _. eexists _, _. split; [done|]. simpl.
      destruct HR as [_ _ -> _]. rewrite maxh_insert. simpl. lia.
Qed.

Lemma current_height_is_max_node_height_witness :
  length [Insert 20; Insert 10; Erase 20; Clear; Insert 5] + 16 < 30 ∧
  ∃ s, run 30 [Insert 20; Insert 10; Erase 20; Clear; Insert 5]
         (new_skip_list coin) = Some s ∧
       current_height_ s = Z.of_nat (max_node_height s).
Proof.
  split; [simpl; lia|].
  destruct (current_height_is_max_node_height coin
              [Insert 20; Insert 10; Erase 20; Clear; Insert 5] 30)
    as (s & Hrun & Hh & _); [simpl; lia|].
  by exists s.
Defined.

(** ** The unlink loop against unconditional unlinking *)

Arguments unlink_levels : simpl never.

Lemma unlink_levels_S n i (h : heap) up cur ua nx h1 :
  up !! i = Some (Some ua) →
  get_forward h cur i = Some nx →
  set_forward h ua i nx = Some h1 →
  unlink_levels (S n) i h up cur = unlink_levels n (S i) h1 up cur.
Proof.
  intros Hu Hc H1. unfold unlink_levels at 1. fold unlink_levels.
  rewrite Hu. simpl. rewrite Hc. simpl. by rewrite H1.
Qed.

Lemma unlink_levels_spec head l1 t r2 up :
  good head (l1 ++ t :: r2) →
  (∀ i, i < theight t →
        ∃ ci, up !! i = Some (Some ci) ∧ upd_pos head l1 i ci) →
  ∀ n j, j + n = theight t →
    unlink_levels n j (del_heap head l1 t r2 j) up (taddr t) =
      Some (del_heap head l1 t r2 (theight t)).
Proof.
  intros Hg Hup. induction n as [|n IH]; intros j Hj.
  - unfold unlink_levels. by replace j with (theight t) by lia.
  - destruct (Hup j) as (cj & Hcj & Hpos); [lia|].
    rewrite (unlink_levels_S n j _ up (taddr t) cj (nxtd nil_d j r2)
               (del_heap head l1 t r2 (S j)) Hcj).
    + apply IH. lia.
    + unfold get_forward. rewrite del_heap_cur by done. simpl.
      apply linksd_lookup. lia.
    + by apply del_heap_set.
Qed.

Lemma cellsd_lookup_Some d l a m :
  cellsd d l ∅ !! a = Some m →
  ∃ l1 t l2, l = l1 ++ t :: l2 ∧ a = taddr t ∧
             m = mkNode (tkey t) (linksd d (theight t) l2).
Proof.
  induction l as [|t r IH]; simpl.
  - by rewrite lookup_empty.
  - destruct (decide (taddr t = a)) as [<-|Hne].
    + rewrite lookup_insert_eq. intros [= <-]. by exists [], t, r.
    + rewrite lookup_insert_ne by done. intros Hm.
      destruct (IH Hm) as (l1 & t' & l2 & -> & -> & ->).
      by exists (t :: l1), t', l2.
Qed.

(** Every pointer stored in a well-formed heap is the address of a tower
    of the list. *)
Lemma repr_forward_elem head l a m i p :
  repr head l !! a = Some m → forward m !! i = Some (Some p) →
  p ∈ taddr <$> l.
Proof.
  unfold repr, seg. intros Ha Hp.
  assert (∀ hh r, linksd nil_d hh r !! i = Some (Some p) → p ∈ taddr <$> r)
    as Hlinks.
  { intros hh r Hl. destruct (decide (i < hh)).
    - rewrite linksd_lookup in Hl by done. injection Hl as Hl.
      apply nxtd_elem in Hl as [?|(t & Ht & <- & _)]; [done|].
      by apply list_elem_of_fmap_2.
    - by rewrite linksd_lookup_ge in Hl by lia. }
  destruct (decide (head = a)) as [<-|Hne].
  - rewrite lookup_insert_eq in Ha. injection Ha as <-. by eapply Hlinks.
  - rewrite lookup_insert_ne in Ha by done.
    apply cellsd_lookup_Some in Ha as (l1 & t & l2 & -> & -> & ->).
    rewrite fmap_app, fmap_cons. apply elem_of_app. right. right.
    by eapply Hlinks.
Qed.

(** C2. When [erase] finds the key, its unlink loop (which leaves at the
    first level whose update-path pointer does not target the removed
    node) leaves with [i] equal to the height of the removed node, so it
    rewires exactly that node's own levels; it produces the same heap as
    unlinking the levels [0 .. node_height - 1] unconditionally; and after
    the erase no forward pointer of any node, at any level, targets the
    removed node. *)
Theorem unlink_break_is_exact (s : skip_list) (v : Z) (fuel : nat) :
  wf s → N.to_nat (size s) < fuel → contains fuel v s = Some true →
  ∃ c up cur n h' s',
    descend_path fuel (store s) v (Z.to_nat (current_height_ s))
      (sentinel_head_ s) (replicate (Z.to_nat MAX_HEIGHT) None)
      = Some (c, up) ∧
    get_forward (store s) c 0 = Some (Some cur) ∧
    store s !! cur = Some n ∧ value n = v ∧
    unlink (Z.to_nat (current_height_ s)) 0 (store s) up cur
      = Some (h', node_height n) ∧
    unlink_levels (node_height n) 0 (store s) up cur = Some h' ∧
    erase fuel v s = Some (true, s') ∧ store s' = delete cur h' ∧
    (∀ a m i, store s' !! a = Some m → forward m !! i ≠ Some (Some cur)).
Proof.
  intros [l HR] Hfuel Hc. rewrite (Repr_size s l HR) in Hfuel.
  rewrite (contains_spec s l v fuel HR Hfuel) in Hc.
  injection Hc as Hc. apply bool_decide_eq_true_1 in Hc.
  destruct (erase_path_spec s l v fuel HR Hfuel)
    as [[? _]|(l1 & t & r2 & c & up & -> & Hk & Hd & Hgf & Hup & He & HR')];
    [done|].
  pose proof HR as [Hg Hst Hh _].
  exists c, up, (taddr t), (mkNode (tkey t) (linksd nil_d (theight t) r2)),
    (del_heap (sentinel_head_ s) l1 t r2 (theight t)).
  eexists. unfold node_height. simpl. rewrite linksd_length.
  split_and!; [done|done| |done| | |apply He| |].
  - rewrite Hst, <-(del_heap_0 (sentinel_head_ s) l1 t r2).
    by apply del_heap_cur.
  - rewrite Hh, Nat2Z.id, Hst. by apply unlink_repr.
  - rewrite Hst, <-(del_heap_0 (sentinel_head_ s) l1 t r2).
    apply unlink_levels_spec; [done| |done].
    intros i Hi. apply Hup. rewrite maxh_insert. lia.
  - simpl. by rewrite del_heap_delete.
  - simpl. intros a m i Ha Hp.
    pose proof (repr_forward_elem _ _ _ _ _ _ Ha Hp) as Hin.
    destruct (good_middle_fresh _ _ _ _ Hg) as [Hn1 Hn2].
    rewrite fmap_app in Hin. apply elem_of_app in Hin as [Hin|Hin].
    + apply Hn1. by right.
    + by apply Hn2.
Qed.

(** In [stepped_state] the node of 20 has height 2 and [current_height_]
    is 4: the loop is left at level 2 by the break, where the update path
    holds the node of 10, whose link at that level is null. *)
Lemma unlink_break_is_exact_witness :
  wf stepped_state ∧ N.to_nat (size stepped_state) < 20 ∧
  contains 20 20 stepped_state = Some true ∧
  current_height_ stepped_state = 4%Z ∧
  ∃ c up cur n h' s',
    descend_path 20 (store stepped_state) 20
      (Z.to_nat (current_height_ stepped_state))
      (sentinel_head_ stepped_state) (replicate (Z.to_nat MAX_HEIGHT) None)
      = Some (c, up) ∧
    get_forward (store stepped_state) c 0 = Some (Some cur) ∧
    store stepped_state !! cur = Some n ∧ value n = 20%Z ∧
    unlink (Z.to_nat (current_height_ stepped_state)) 0 (store stepped_state)
      up cur = Some (h', node_height n) ∧
    unlink_levels (node_height n) 0 (store stepped_state) up cur = Some h' ∧
    erase 20 20 stepped_state = Some (true, s') ∧ store s' = delete cur h' ∧
    (∀ a m i, store s' !! a = Some m → forward m !! i ≠ Some (Some cur)) ∧
    node_height n = 2 ∧
    cur = 3%positive ∧ up !! 2 = Some (Some 2%positive) ∧
    get_forward (store stepped_state) 2%positive 2 = Some None.
Proof.
  split; [apply wf_stepped_state|]. split; [vm_compute; lia|].
  split; [vm_compute; reflexivity|]. split; [reflexivity|].
  destruct (unlink_break_is_exact stepped_state 20 20)
    as (c & up & cur & n & h' & s' & Hd & Hg & Hn & Hv & Hu & Hl & He & Hs & Hp);
    [apply wf_stepped_state | vm_compute; lia | vm_compute; reflexivity |].
  exists c, up, cur, n, h', s'. do 9 (split; [assumption|]).
  vm_compute in Hd. injection Hd as <- <-.
  vm_compute in Hg. injection Hg as <-.
  vm_compute in Hn. injection Hn as <-.
  split; [reflexivity|]. split; [reflexivity|].
  split; [reflexivity|vm_compute; reflexivity].
Defined.

(** * Further properties of the interface *)

(** ** Keys and addresses of a well-formed list *)

Lemma ins_key_middle (k1 k2 : list Z) v :
  StronglySorted Z.lt (k1 ++ v :: k2) → k1 ++ v :: k2 = ins_key v (k1 ++ k2).
Proof.
  induction k1 as [|k k1 IH]; simpl; intros Hs.
  - apply StronglySorted_inv in Hs as [_ Hall].
    destruct k2 as [|k k2]; [done|]. simpl.
    apply Forall_cons in Hall as [Hk _].
    by rewrite (proj2 (Z.ltb_lt _ _) Hk).
  - apply StronglySorted_inv in Hs as [Hs Hall].
    apply Forall_app in Hall as [_ [Hk _]%Forall_cons].
    rewrite (proj2 (Z.ltb_ge v k)) by lia. f_equal. by apply IH.
Qed.

Lemma filter_ne_absent (ks : list Z) v :
  v ∉ ks → filter (λ k, k ≠ v) ks = ks.
Proof.
  induction ks as [|k ks IH]; [done|].
  intros [Hne Hin]%not_elem_of_cons.
  rewrite filter_cons_True by done. f_equal. by apply IH.
Qed.

Lemma filter_ne_middle (k1 k2 : list Z) v :
  v ∉ k1 ++ k2 → filter (λ k, k ≠ v) (k1 ++ v :: k2) = k1 ++ k2.
Proof.
  intros Hin. rewrite filter_app, filter_cons_False by (intros ?; done).
  rewrite <-filter_app. by apply filter_ne_absent.
Qed.

Lemma addr_of_middle k l1 t l2 :
  tkey t ≠ k → addr_of k (l1 ++ t :: l2) = addr_of k (l1 ++ l2).
Proof.
  intros Hne. unfold addr_of.
  by rewrite !filter_app, filter_cons_False by done.
Qed.

Lemma filter_key_none k l :
  k ∉ tkey <$> l → filter (λ t, tkey t = k) l = [].
Proof.
  induction l as [|t l IH]; [done|]. simpl.
  intros [Hne Hin]%not_elem_of_cons.
  rewrite filter_cons_False by done. by apply IH.
Qed.

Lemma addr_of_absent k l : k ∉ tkey <$> l → addr_of k l = None.
Proof. intros Hin. unfold addr_of. by rewrite filter_key_none. Qed.

Lemma addr_of_split k l1 t r2 :
  k ∉ tkey <$> l1 → tkey t = k → addr_of k (l1 ++ t :: r2) = Some (taddr t).
Proof.
  intros Hin Hk. unfold addr_of.
  by rewrite filter_app, filter_key_none, filter_cons_True by done.
Qed.

Lemma addr_of_Some head l k a :
  good head l → addr_of k l = Some a →
  k ∈ tkey <$> l ∧ ∃ fw, repr head l !! a = Some (mkNode k fw).
Proof.
  intros Hg Ha. unfold addr_of in Ha.
  destruct (filter (λ t, tkey t = k) l) as [|t r] eqn:Hf; [done|].
  injection Ha as <-.
  assert (t ∈ filter (λ t, tkey t = k) l) as Ht by (rewrite Hf; left).
  apply list_elem_of_filter in Ht as [<- Ht]. split.
  - by apply list_elem_of_fmap_2.
  - by apply (tailok_elem _ _ _ _ (repr_tailok _ _ Hg)).
Qed.

Lemma find_addr s l v fuel :
  Repr s l → length l < fuel → find fuel v s = Some (addr_of v l).
Proof.
  intros HR Hfuel.
  destruct (search_state s l v fuel HR Hfuel)
    as (l1 & l2 & c & -> & Hlt & Hge & Hd & Hgf & Hm).
  unfold find. rewrite Hd. simpl. rewrite Hgf. simpl. rewrite Hm. simpl.
  f_equal. destruct HR as [Hg _ _ _].
  assert (v ∉ tkey <$> l1) as Hn1.
  { intros (t & -> & Ht)%list_elem_of_fmap.
    pose proof (proj1 (Forall_forall _ _) Hlt t Ht). simpl in *. lia. }
  case_bool_decide as Hin.
  - destruct l2 as [|t r2].
    { by rewrite app_nil_r in Hin. }
    pose proof (found_first l1 t r2 v (good_sorted _ _ Hg) Hlt Hge Hin) as Hk.
    rewrite addr_of_split by done.
    pose proof (good_heights _ _ Hg) as Hhs.
    apply Forall_app in Hhs as [_ [Ht _]%Forall_cons].
    simpl. destruct (decide (0 < theight t)); [done|lia].
  - by rewrite addr_of_absent.
Qed.

(** What [insert] and [erase] do to the keys and to the addresses of the
    other nodes. *)
Lemma insert_keys s l v fuel :
  Repr s l → length l < fuel → 16 ≤ fuel →
  ∃ s' l',
    insert fuel v s = Some (negb (bool_decide (v ∈ tkey <$> l)), s') ∧
    Repr s' l' ∧ sentinel_head_ s' = sentinel_head_ s ∧
    tkey <$> l' = (if bool_decide (v ∈ tkey <$> l) then tkey <$> l
                   else ins_key v (tkey <$> l)) ∧
    length l' = (if bool_decide (v ∈ tkey <$> l) then length l
                 else S (length l)) ∧
    (∀ k, k ≠ v → addr_of k l' = addr_of k l).
Proof.
  intros HR Hfuel H16.
  destruct (insert_spec s l v fuel HR Hfuel H16)
    as [[Hin ->]|[Hin (l1 & l2 & h & -> & Hh & _ & -> & HR')]].
  - exists s, l. rewrite bool_decide_eq_true_2 by done. by split_and!.
  - eexists _, _. rewrite bool_decide_eq_false_2 by done.
    split_and!; [done|apply HR'|done| | |].
    + pose proof (good_keys_sorted _ _ (repr_good _ _ HR')) as Hs.
      rewrite !fmap_app, fmap_cons in *. by apply ins_key_middle.
    + rewrite !length_app. simpl. lia.
    + intros k Hk. apply addr_of_middle. simpl. congruence.
Qed.

Lemma erase_keys s l v fuel :
  Repr s l → length l < fuel →
  ∃ s' l',
    erase fuel v s = Some (bool_decide (v ∈ tkey <$> l), s') ∧
    Repr s' l' ∧ sentinel_head_ s' = sentinel_head_ s ∧
    tkey <$> l' = filter (λ k, k ≠ v) (tkey <$> l) ∧
    length l = (if bool_decide (v ∈ tkey <$> l) then S (length l')
                else length l') ∧
    (∀ k, k ≠ v → addr_of k l' = addr_of k l).
Proof.
  intros HR Hfuel.
  destruct (erase_spec s l v fuel HR Hfuel)
    as [[Hin ->]|(l1 & t & r2 & -> & <- & -> & HR')].
  - exists s, l. rewrite bool_decide_eq_false_2 by done.
    split_and!; try done. by rewrite filter_ne_absent.
  - pose proof (sorted_middle_notin _ _ _ _ (repr_good _ _ HR)) as Hn.
    eexists _, _. rewrite bool_decide_eq_true_2.
    2:{ rewrite fmap_app, fmap_cons. apply elem_of_app. right. left. }
    split_and!; [done|apply HR'|done| | |].
    + rewrite !fmap_app, fmap_cons in *. by rewrite filter_ne_middle.
    + rewrite !length_app. simpl. lia.
    + intros k Hk. symmetry. by apply addr_of_middle.
Qed.

Lemma elem_of_ins_key k v (ks : list Z) : k ∈ ins_key v ks ↔ k = v ∨ k ∈ ks.
Proof.
  induction ks as [|x ks IH]; simpl.
  - rewrite list_elem_of_singleton. set_solver.
  - destruct (v <? x)%Z.
    + by rewrite elem_of_cons.
    + rewrite !elem_of_cons, IH. tauto.
Qed.

Lemma middle_unique (l1 l2 l1' l2' : list tower) t t' :
  NoDup (tkey <$> l1 ++ t :: l2) →
  l1 ++ t :: l2 = l1' ++ t' :: l2' → tkey t = tkey t' →
  l1 ++ l2 = l1' ++ l2'.
Proof.
  revert l1'. induction l1 as [|x l1 IH]; intros l1' Hnd Heq Hk.
  - destruct l1' as [|x' l1']; simpl in *.
    + by injection Heq as _ ->.
    + injection Heq as -> ->. apply NoDup_cons in Hnd as [Hn _].
      exfalso. apply Hn. rewrite Hk, fmap_app, fmap_cons.
      apply elem_of_app. right. left.
  - destruct l1' as [|x' l1']; simpl in *.
    + injection Heq as -> <-. apply NoDup_cons in Hnd as [Hn _].
      exfalso. apply Hn. rewrite <-Hk, fmap_app, fmap_cons.
      apply elem_of_app. right. left.
    + injection Heq as -> Heq. apply NoDup_cons in Hnd as [_ Hnd].
      f_equal. by apply IH.
Qed.

Lemma wf_Repr s : wf s → ∃ l, Repr s l ∧ length l = N.to_nat (size s).
Proof. intros [l HR]. exists l. split; [done|]. by rewrite (Repr_size s l). Qed.

(** ** Membership after an update *)

(** X1. [insert(v)] changes the membership of [v] only: every other key
    is found afterwards exactly when it was found before, and [v] is
    found. *)
Theorem insert_adds_only_its_key (s : skip_list) (v : Z) (fuel : nat) :
  wf s → N.to_nat (size s) + 16 < fuel →
  ∃ b s1, insert fuel v s = Some (b, s1) ∧
    ∀ k, ∃ c, contains fuel k s = Some c ∧
              contains fuel k s1 = Some (bool_decide (k = v) || c).
Proof.
  intros (l & HR & Hl)%wf_Repr Hfuel.
  destruct (insert_keys s l v fuel HR) as (s1 & l1 & Hins & HR1 & _ & Hk & Hl1 & _);
    [lia..|].
  eexists _, s1. split; [done|]. intros k.
  exists (bool_decide (k ∈ tkey <$> l)).
  split; [apply contains_spec; [done|lia]|].
  rewrite (contains_spec s1 l1 k fuel HR1) by (case_bool_decide; lia).
  f_equal. rewrite Hk. apply eq_true_iff_eq.
  rewrite orb_true_iff, !bool_decide_eq_true.
  case_bool_decide as Hv.
  - split; [tauto|]. intros [->|]; done.
  - rewrite elem_of_ins_key. tauto.
Qed.

Lemma insert_adds_only_its_key_witness :
  wf demo_state ∧ N.to_nat (size demo_state) + 16 < 40 ∧
  ∃ b s1, insert 40 15 demo_state = Some (b, s1) ∧
    ∀ k, ∃ c, contains 40 k demo_state = Some c ∧
              contains 40 k s1 = Some (bool_decide (k = 15%Z) || c).
Proof.
  split; [apply wf_demo_state|]. split; [vm_compute; lia|].
  apply (insert_adds_only_its_key demo_state 15 40);
    [apply wf_demo_state | vm_compute; lia].
Defined.

(** X2. [erase(v)] changes the membership of [v] only: every other key is
    found afterwards exactly when it was found before, and [v] is not
    found. *)
Theorem erase_removes_only_its_key (s : skip_list) (v : Z) (fuel : nat) :
  wf s → N.to_nat (size s) < fuel →
  ∃ b s1, erase fuel v s = Some (b, s1) ∧
    ∀ k, ∃ c, contains fuel k s = Some c ∧
              contains fuel k s1 = Some (negb (bool_decide (k = v)) && c).
Proof.
  intros (l & HR & Hl)%wf_Repr Hfuel.
  destruct (erase_keys s l v fuel HR) as (s1 & l1 & Hins & HR1 & _ & Hk & Hl1 & _);
    [lia|].
  eexists _, s1. split; [done|]. intros k.
  exists (bool_decide (k ∈ tkey <$> l)).
  split; [apply contains_spec; [done|lia]|].
  rewrite (contains_spec s1 l1 k fuel HR1) by (case_bool_decide; lia).
  f_equal. rewrite Hk. apply eq_true_iff_eq.
  rewrite andb_true_iff, negb_true_iff, bool_decide_eq_false,
    !bool_decide_eq_true, list_elem_of_filter. done.
Qed.

Lemma erase_removes_only_its_key_witness :
  wf demo_state ∧ N.to_nat (size demo_state) < 20 ∧
  ∃ b s1, erase 20 10 demo_state = Some (b, s1) ∧
    ∀ k, ∃ c, contains 20 k demo_state = Some c ∧
              contains 20 k s1 = Some (negb (bool_decide (k = 10%Z)) && c).
Proof.
  split; [apply wf_demo_state|]. split; [vm_compute; lia|].
  apply (erase_removes_only_its_key demo_state 10 20);
    [apply wf_demo_state | vm_compute; lia].
Defined.

(** ** The shape of the store *)

Lemma cellsd_size d l :
  NoDup (taddr <$> l) → stdpp.base.size (cellsd d l ∅) = length l.
Proof.
  induction l as [|t l IH]; simpl; intros Hnd.
  - apply map_size_empty.
  - apply NoDup_cons in Hnd as [Ht Hnd].
    rewrite map_size_insert_None, IH; [done..|].
    rewrite cellsd_lookup_ne by done. apply lookup_empty.
Qed.

Lemma repr_map_size head l :
  good head l → stdpp.base.size (repr head l) = S (length l).
Proof.
  intros [Hnd _ _]. apply NoDup_cons in Hnd as [Hh Hnd].
  unfold repr, seg. rewrite map_size_insert_None, cellsd_size; [done..|].
  rewrite cellsd_lookup_ne by done. apply lookup_empty.
Qed.

Lemma repr_lookup_tower head l1 t l2 :
  good head (l1 ++ t :: l2) →
  repr head (l1 ++ t :: l2) !! taddr t =
    Some (mkNode (tkey t) (linksd nil_d (theight t) l2)).
Proof.
  intros Hg. pose proof (repr_tailok _ _ Hg) as Hok.
  by apply tailok_app in Hok as [_ [? _]].
Qed.

Lemma repr_lookup_elem head l t :
  good head l → t ∈ l →
  ∃ fw, repr head l !! taddr t = Some (mkNode (tkey t) fw) ∧
        length fw = theight t.
Proof.
  intros Hg (l1 & l2 & ->)%list_elem_of_split.
  eexists. split; [by apply repr_lookup_tower|]. apply linksd_length.
Qed.

Lemma repr_lookup_inv head l a n :
  repr head l !! a = Some n →
  (a = head ∧ n = mkNode 0 (linksd nil_d 16 l)) ∨
  (a ≠ head ∧ ∃ l1 t l2, l = l1 ++ t :: l2 ∧ a = taddr t ∧
                         n = mkNode (tkey t) (linksd nil_d (theight t) l2)).
Proof.
  unfold repr, seg. intros Ha.
  destruct (decide (head = a)) as [<-|Hne].
  - rewrite lookup_insert_eq in Ha. injection Ha as <-. by left.
  - rewrite lookup_insert_ne in Ha by done. right. split; [done|].
    by apply cellsd_lookup_Some.
Qed.

Lemma links_target d hh r i b :
  linksd d hh r !! i = Some (Some b) →
  i < hh ∧ (d i = Some b ∨ ∃ t, t ∈ r ∧ taddr t = b ∧ i < theight t).
Proof.
  intros Hl. destruct (decide (i < hh)).
  - rewrite linksd_lookup in Hl by done. injection Hl as Hl.
    split; [done|]. by apply nxtd_elem.
  - by rewrite linksd_lookup_ge in Hl by lia.
Qed.

(** X10. In every state the operations can produce, the sentinel has 16
    forward slots, every other node has between 1 and 16, and every
    non-null forward pointer at level [i] targets a live node other than
    the sentinel that itself has a level [i] and, when the pointer belongs
    to a real node, a strictly greater key: no pointer dangles and every
    level is ascending. *)
Theorem forward_pointers_are_sound (seed : rng) (ops : list op) (fuel : nat) :
  length ops + 16 < fuel →
  ∃ s, run fuel ops (new_skip_list seed) = Some s ∧
    (∃ n, store s !! sentinel_head_ s = Some n ∧ node_height n = 16) ∧
    ∀ a n, store s !! a = Some n →
      (a ≠ sentinel_head_ s → 1 ≤ node_height n ≤ 16) ∧
      ∀ i b, forward n !! i = Some (Some b) →
        b ≠ sentinel_head_ s ∧
        ∃ m, store s !! b = Some m ∧ i < node_height m ∧
             (a ≠ sentinel_head_ s → (value n < value m)%Z).
Proof.
  intros Hfuel.
  destruct (run_spec ops (new_skip_list seed) [] fuel (Repr_new seed))
    as (s & l & Hrun & HR & _ & _); [simpl; lia..|].
  exists s. split; [done|]. destruct HR as [Hg Hst _ _]. rewrite Hst.
  set (hd := sentinel_head_ s) in *.
  assert (∀ t, t ∈ l → taddr t ≠ hd ∧
            ∃ m, repr hd l !! taddr t = Some m ∧
                 node_height m = theight t ∧ value m = tkey t) as Hlive.
  { intros t Ht. split.
    - intros Heq. pose proof (good_nodup _ _ Hg) as Hnd.
      apply NoDup_cons in Hnd as [Hn _]. apply Hn. rewrite <-Heq.
      by apply list_elem_of_fmap_2.
    - destruct (repr_lookup_elem hd l t Hg Ht) as (fw & Hfw & Hlen).
      eexists. split; [done|]. by split. }
  split.
  { eexists. split; [apply lookup_insert_eq|].
    unfold node_height. simpl. by rewrite ?linksd_length. }
  intros a n Ha.
  apply repr_lookup_inv in Ha as [[-> ->]|(Hne & l1 & t & l2 & -> & -> & ->)].
  - split; [done|]. intros i b Hb. simpl in Hb.
    apply links_target in Hb as [_ [?|(t & Ht & <- & Hi)]]; [done|].
    destruct (Hlive t Ht) as (Hn & m & Hm & Hh & _).
    split; [done|]. exists m. split_and!; [done|lia|done].
  - unfold node_height. simpl. rewrite linksd_length. split.
    { intros _. pose proof (good_heights _ _ Hg) as Hhs.
      by apply Forall_app in Hhs as [_ [? _]%Forall_cons]. }
    intros i b Hb.
    apply links_target in Hb as [_ [?|(t' & Ht' & <- & Hi)]]; [done|].
    destruct (Hlive t') as (Hn & m & Hm & Hh & Hv).
    { apply elem_of_app. right. by right. }
    unfold node_height in Hh.
    split; [done|]. exists m. split_and!; [done|lia|].
    intros _. rewrite Hv.
    pose proof (good_sorted _ _ Hg) as Hs. rewrite fmap_app in Hs.
    apply StronglySorted_app_1_r in Hs. simpl in Hs.
    apply StronglySorted_inv in Hs as [_ Hall].
    apply (proj1 (Forall_forall _ _) Hall). by apply list_elem_of_fmap_2.
Qed.

Lemma forward_pointers_are_sound_witness :
  length [Insert 20; Insert 10; Erase 20; Insert 5] + 16 < 30 ∧
  ∃ s, run 30 [Insert 20; Insert 10; Erase 20; Insert 5]
         (new_skip_list coin) = Some s ∧
       ∃ n, store s !! sentinel_head_ s = Some n ∧ node_height n = 16.
Proof.
  split; [simpl; lia|].
  destruct (forward_pointers_are_sound coin
              [Insert 20; Insert 10; Erase 20; Insert 5] 30)
    as (s & Hrun & Hh & _); [simpl; lia|].
  by exists s.
Defined.

(** X5. No node is leaked: in every state the operations can produce the
    store holds exactly [size() + 1] nodes (the sentinel and one node per
    element), and the destructor runs without fault and leaves the store
    empty. *)
Theorem no_node_is_leaked (seed : rng) (ops : list op) (fuel : nat) :
  length ops + 16 < fuel →
  ∃ s, run fuel ops (new_skip_list seed) = Some s ∧
    N.of_nat (stdpp.base.size (store s)) = (size s + 1)%N ∧
    destroy fuel s = Some ∅.
Proof.
  intros Hfuel.
  destruct (run_spec ops (new_skip_list seed) [] fuel (Repr_new seed))
    as (s & l & Hrun & HR & Hl & _); [simpl; lia..|].
  simpl in Hl. exists s. split; [done|]. split.
  - destruct HR as [Hg -> _ Hc]. rewrite repr_map_size by done.
    unfold size. rewrite Hc. lia.
  - unfold destroy. rewrite (clear_spec s l fuel HR) by lia. simpl.
    unfold repr, seg. rewrite lookup_insert_eq. simpl.
    by rewrite delete_insert_eq, delete_empty.
Qed.

Lemma no_node_is_leaked_witness :
  length [Insert 20; Insert 10; Erase 20; Insert 5] + 16 < 30 ∧
  ∃ s, run 30 [Insert 20; Insert 10; Erase 20; Insert 5]
         (new_skip_list coin) = Some s ∧
       N.of_nat (stdpp.base.size (store s)) = (size s + 1)%N ∧
       destroy 30 s = Some ∅.
Proof.
  split; [simpl; lia|].
  apply (no_node_is_leaked coin [Insert 20; Insert 10; Erase 20; Insert 5] 30).
  simpl; lia.
Defined.

(** X4. In every state the operations can produce, [size()] is the number
    of elements an iteration visits, [empty()] holds exactly when
    [begin() == end()], and on a non-empty list [begin()] dereferences to
    the least key. *)
Theorem size_and_begin_agree_with_iteration (seed : rng) (ops : list op)
    (fuel : nat) :
  length ops + 16 < fuel →
  ∃ s b ks, run fuel ops (new_skip_list seed) = Some s ∧
    begin_ s = Some b ∧ to_list fuel s = Some ks ∧
    size s = N.of_nat (length ks) ∧
    empty s = bool_decide (ks = []) ∧
    iter_eq b (end_ s) = empty s ∧ iter_ne b (end_ s) = negb (empty s) ∧
    match ks with
    | [] => b = end_ s
    | k :: _ => deref (store s) b = Some k ∧ Forall (Z.le k) ks
    end.
Proof.
  intros Hfuel.
  destruct (run_spec ops (new_skip_list seed) [] fuel (Repr_new seed))
    as (s & l & Hrun & HR & Hl & _); [simpl; lia..|].
  simpl in Hl.
  exists s, (nxtd nil_d 0 l), (tkey <$> l).
  split; [done|]. split; [by apply begin_spec|].
  split; [apply to_list_spec; [done|lia]|].
  pose proof HR as [Hg Hst _ Hc].
  unfold size, empty, iter_eq, iter_ne, end_. rewrite Hc, length_fmap.
  split; [done|].
  destruct l as [|t l]; simpl.
  { by split_and!. }
  pose proof (good_heights _ _ Hg) as [Ht _]%Forall_cons.
  destruct (decide (0 < theight t)); [|lia].
  split_and!; try done.
  - pose proof (repr_lookup_tower _ [] t l Hg) as Hlk. simpl in Hlk.
    unfold deref. simpl. by rewrite Hst, Hlk.
  - pose proof (good_sorted _ _ Hg) as [_ Hall]%StronglySorted_inv.
    constructor; [lia|]. eapply Forall_impl; [apply Hall|].
    simpl. intros; lia.
Qed.

Lemma size_and_begin_agree_with_iteration_witness :
  length [Insert 20; Insert 10; Erase 20; Insert 5] + 16 < 30 ∧
  ∃ s b ks, run 30 [Insert 20; Insert 10; Erase 20; Insert 5]
              (new_skip_list coin) = Some s ∧
    begin_ s = Some b ∧ to_list 30 s = Some ks ∧
    size s = N.of_nat (length ks).
Proof.
  split; [simpl; lia|].
  destruct (size_and_begin_agree_with_iteration coin
              [Insert 20; Insert 10; Erase 20; Insert 5] 30)
    as (s & b & ks & Hrun & Hb & Hl & Hs & _); [simpl; lia|].
  by exists s, b, ks.
Defined.

(** ** Positions *)

Lemma filter_ge_split (k1 k2 : list Z) v :
  Forall (λ k, (k < v)%Z) k1 → Forall (λ k, (v ≤ k)%Z) k2 →
  filter (λ k, (v ≤ k)%Z) (k1 ++ k2) = k2.
Proof.
  intros H1 H2. rewrite filter_app.
  replace (filter (λ k, (v ≤ k)%Z) k1) with (@nil Z).
  - simpl. induction H2 as [|k k2 Hk _ IH]; [done|].
    rewrite filter_cons_True by done. by f_equal.
  - symmetry. induction H1 as [|k k1 Hk _ IH]; [done|].
    rewrite filter_cons_False by lia. done.
Qed.

Lemma addr_of_present k l : k ∈ tkey <$> l → is_Some (addr_of k l).
Proof.
  intros (t & -> & Ht)%list_elem_of_fmap. unfold addr_of.
  destruct (filter (λ t', tkey t' = tkey t) l) as [|t' r] eqn:Hf; [|by eexists].
  assert (t ∈ filter (λ t', tkey t' = tkey t) l) as Hin
    by (by apply list_elem_of_filter).
  rewrite Hf in Hin. by apply elem_of_nil in Hin.
Qed.

(** X7. [find(v)] exposes the node for continued traversal: iterating from
    the position it returns visits exactly the keys from [v] upwards, in
    order, and nothing when [v] is absent. *)
Theorem iterate_from_find (s : skip_list) (v : Z) (fuel : nat) :
  wf s → N.to_nat (size s) < fuel →
  ∃ it ks, find fuel v s = Some it ∧ to_list fuel s = Some ks ∧
    traverse fuel (store s) it =
      Some (if bool_decide (v ∈ ks) then filter (λ k, (v ≤ k)%Z) ks else []).
Proof.
  intros (l & HR & Hl)%wf_Repr Hfuel. rewrite <-Hl in Hfuel.
  exists (addr_of v l), (tkey <$> l).
  split; [by apply find_addr|]. split; [by apply to_list_spec|].
  pose proof HR as [Hg Hst _ _].
  destruct (key_split v l (good_sorted _ _ Hg)) as (l1 & l2 & -> & Hlt & Hge).
  assert (v ∉ tkey <$> l1) as Hn1.
  { intros (t & -> & Ht)%list_elem_of_fmap.
    pose proof (proj1 (Forall_forall _ _) Hlt t Ht). simpl in *. lia. }
  case_bool_decide as Hin.
  - destruct l2 as [|t r2]; [by rewrite app_nil_r in Hin|].
    pose proof (found_first l1 t r2 v (good_sorted _ _ Hg) Hlt Hge Hin) as Hk.
    rewrite addr_of_split by done.
    rewrite fmap_app, filter_ge_split; [| by rewrite Forall_fmap..].
    pose proof (good_heights_pos _ _ Hg) as [_ Hpos]%Forall_app.
    replace (Some (taddr t)) with (nxtd nil_d 0 (t :: r2)).
    2:{ apply Forall_cons in Hpos as [? _]. simpl.
        destruct (decide (0 < theight t)); [done|lia]. }
    apply traverse_spec; [|done|rewrite length_app in Hfuel; lia].
    rewrite Hst. pose proof (repr_tailok _ _ Hg) as Hok.
    by apply tailok_app in Hok as [_ ?].
  - rewrite addr_of_absent by done.
    destruct fuel; [lia|done].
Qed.

Lemma iterate_from_find_witness :
  wf demo_state ∧ N.to_nat (size demo_state) < 20 ∧
  ∃ it ks, find 20 20 demo_state = Some it ∧
    to_list 20 demo_state = Some ks ∧
    traverse 20 (store demo_state) it =
      Some (if bool_decide (20%Z ∈ ks)
            then filter (λ k, (20 ≤ k)%Z) ks else []).
Proof.
  split; [apply wf_demo_state|]. split; [vm_compute; lia|].
  apply (iterate_from_find demo_state 20 20);
    [apply wf_demo_state | vm_compute; lia].
Defined.

(** X9. Nodes are never moved: inserting or erasing a key [v] leaves the
    position of every other key [k] unchanged, so an iterator obtained
    from [find(k)] before the update is the one [find(k)] returns after
    it and still dereferences to the same key. *)
Theorem positions_survive_updates (s : skip_list) (v k : Z) (fuel : nat) :
  wf s → N.to_nat (size s) + 16 < fuel → k ≠ v →
  ∃ it b1 s1 b2 s2,
    find fuel k s = Some it ∧
    insert fuel v s = Some (b1, s1) ∧ find fuel k s1 = Some it ∧
    deref (store s1) it = deref (store s) it ∧
    erase fuel v s = Some (b2, s2) ∧ find fuel k s2 = Some it ∧
    deref (store s2) it = deref (store s) it.
Proof.
  intros (l & HR & Hl)%wf_Repr Hfuel Hne. rewrite <-Hl in Hfuel.
  destruct (insert_keys s l v fuel HR) as (s1 & l1 & Hins & HR1 & _ & _ & Hl1 & Ha1);
    [lia..|].
  destruct (erase_keys s l v fuel HR) as (s2 & l2 & Her & HR2 & _ & _ & Hl2 & Ha2);
    [lia|].
  assert (∀ s' l', Repr s' l' → addr_of k l' = addr_of k l →
            deref (store s') (addr_of k l) = deref (store s) (addr_of k l))
    as Hderef.
  { intros s' l' HR' Heq. destruct (addr_of k l) as [a|] eqn:Ha; [|done].
    destruct HR as [Hg -> _ _]. destruct HR' as [Hg' -> _ _].
    destruct (addr_of_Some _ _ _ _ Hg Ha) as (_ & fw & Hfw).
    destruct (addr_of_Some _ _ _ _ Hg' Heq) as (_ & fw' & Hfw').
    unfold deref. simpl. rewrite Hfw, Hfw'. done. }
  exists (addr_of k l). eexists _, s1, _, s2.
  split_and!; [apply find_addr; [done|lia]|done| |by eapply Hderef, Ha1|done|
               |by eapply Hderef, Ha2].
  - rewrite <-(Ha1 k Hne). apply find_addr; [done|]. case_bool_decide; lia.
  - rewrite <-(Ha2 k Hne). apply find_addr; [done|]. case_bool_decide; lia.
Qed.

Lemma positions_survive_updates_witness :
  wf demo_state ∧ N.to_nat (size demo_state) + 16 < 40 ∧ 20%Z ≠ 15%Z ∧
  ∃ it b1 s1 b2 s2,
    find 40 20 demo_state = Some it ∧
    insert 40 15 demo_state = Some (b1, s1) ∧ find 40 20 s1 = Some it ∧
    deref (store s1) it = deref (store demo_state) it ∧
    erase 40 15 demo_state = Some (b2, s2) ∧ find 40 20 s2 = Some it ∧
    deref (store s2) it = deref (store demo_state) it.
Proof.
  split; [apply wf_demo_state|]. split; [vm_compute; lia|].
  split; [lia|].
  apply (positions_survive_updates demo_state 15 20 40);
    [apply wf_demo_state | vm_compute; lia | lia].
Defined.

(** X12. Iterator comparison separates the elements: for two stored keys
    the iterators returned by [find] are equal under [operator==] exactly
    when the keys are equal, [operator!=] is the opposite answer, and
    neither iterator equals [end()]. *)
Theorem find_distinguishes_keys (s : skip_list) (v w : Z) (fuel : nat) :
  wf s → N.to_nat (size s) < fuel →
  contains fuel v s = Some true → contains fuel w s = Some true →
  ∃ i j, find fuel v s = Some i ∧ find fuel w s = Some j ∧
    iter_eq i j = bool_decide (v = w) ∧
    iter_ne i j = negb (bool_decide (v = w)) ∧
    iter_ne i (end_ s) = true ∧ iter_ne j (end_ s) = true.
Proof.
  intros (l & HR & Hl)%wf_Repr Hfuel Hv Hw. rewrite <-Hl in Hfuel.
  rewrite (contains_spec s l v fuel HR Hfuel) in Hv.
  rewrite (contains_spec s l w fuel HR Hfuel) in Hw.
  injection Hv as Hv. injection Hw as Hw.
  apply bool_decide_eq_true_1 in Hv, Hw.
  destruct (addr_of_present v l Hv) as [a Ha].
  destruct (addr_of_present w l Hw) as [b Hb].
  exists (Some a), (Some b). rewrite <-Ha, <-Hb.
  split; [by apply find_addr|]. split; [by apply find_addr|].
  rewrite Ha, Hb. unfold iter_eq, iter_ne, end_.
  destruct HR as [Hg _ _ _].
  destruct (addr_of_Some _ _ _ _ Hg Ha) as (_ & fa & Hfa).
  destruct (addr_of_Some _ _ _ _ Hg Hb) as (_ & fb & Hfb).
  assert (bool_decide (Some a = Some b) = bool_decide (v = w)) as ->.
  { apply bool_decide_ext. split.
    - intros [= ->]. rewrite Hfa in Hfb. by injection Hfb.
    - intros ->. by rewrite <-Ha, <-Hb. }
  by split_and!.
Qed.

Lemma find_distinguishes_keys_witness :
  wf demo_state ∧ N.to_nat (size demo_state) < 20 ∧
  contains 20 10 demo_state = Some true ∧
  contains 20 20 demo_state = Some true ∧
  ∃ i j, find 20 10 demo_state = Some i ∧ find 20 20 demo_state = Some j ∧
    iter_eq i j = bool_decide (10%Z = 20%Z) ∧
    iter_ne i j = negb (bool_decide (10%Z = 20%Z)) ∧
    iter_ne i (end_ demo_state) = true ∧ iter_ne j (end_ demo_state) = true.
Proof.
  split; [apply wf_demo_state|]. split; [vm_compute; lia|].
  split; [vm_compute; reflexivity|]. split; [vm_compute; reflexivity|].
  apply (find_distinguishes_keys demo_state 10 20 20);
    [apply wf_demo_state | vm_compute; lia | vm_compute; reflexivity..].
Defined.

(** ** The container against a sorted list *)

Lemma holds_new seed : holds_keys (new_skip_list seed) [].
Proof. exists []. split; [apply Repr_new | done]. Qed.

Lemma holds_sorted s ks : holds_keys s ks → StronglySorted Z.lt ks.
Proof. intros (l & HR & <-). by eapply good_keys_sorted, repr_good. Qed.

Lemma holds_size s ks : holds_keys s ks → size s = N.of_nat (length ks).
Proof.
  intros (l & [_ _ _ Hc] & <-). unfold size. by rewrite Hc, length_fmap.
Qed.

Lemma insert_holds s ks v fuel :
  holds_keys s ks → length ks < fuel → 16 ≤ fuel →
  ∃ s', insert fuel v s = Some (negb (bool_decide (v ∈ ks)), s') ∧
        holds_keys s' (if bool_decide (v ∈ ks) then ks else ins_key v ks).
Proof.
  intros (l & HR & <-) Hfuel H16. rewrite length_fmap in Hfuel.
  destruct (insert_keys s l v fuel HR Hfuel H16) as (s' & l' & ? & ? & _ & ? & _).
  exists s'. split; [done|]. by exists l'.
Qed.

Lemma erase_holds s ks v fuel :
  holds_keys s ks → length ks < fuel →
  ∃ s', erase fuel v s = Some (bool_decide (v ∈ ks), s') ∧
        holds_keys s' (filter (λ k, k ≠ v) ks).
Proof.
  intros (l & HR & <-) Hfuel. rewrite length_fmap in Hfuel.
  destruct (erase_keys s l v fuel HR Hfuel) as (s' & l' & ? & ? & _ & ? & _).
  exists s'. split; [done|]. by exists l'.
Qed.

Lemma contains_holds s ks v fuel :
  holds_keys s ks → length ks < fuel →
  contains fuel v s = Some (bool_decide (v ∈ ks)).
Proof.
  intros (l & HR & <-) Hfuel. rewrite length_fmap in Hfuel.
  by apply contains_spec.
Qed.

Lemma to_list_holds s ks fuel :
  holds_keys s ks → length ks < fuel → to_list fuel s = Some ks.
Proof.
  intros (l & HR & <-) Hfuel. rewrite length_fmap in Hfuel.
  by apply to_list_spec.
Qed.

Lemma length_ins_key v (ks : list Z) : length (ins_key v ks) = S (length ks).
Proof.
  induction ks as [|k ks IH]; simpl; [done|].
  destruct (v <? k)%Z; simpl; [done|]. by rewrite IH.
Qed.

Lemma ins_key_perm v (ks : list Z) : ins_key v ks ≡ₚ v :: ks.
Proof.
  induction ks as [|k ks IH]; simpl; [done|].
  destruct (v <? k)%Z; [done|]. rewrite IH. apply Permutation_swap.
Qed.

Lemma filter_ne_perm (ks : list Z) k :
  NoDup ks → k ∈ ks → ks ≡ₚ k :: filter (λ x, x ≠ k) ks.
Proof.
  induction ks as [|x ks IH]; intros Hnd Hin.
  - by apply elem_of_nil in Hin.
  - apply NoDup_cons in Hnd as [Hx Hnd].
    destruct (decide (x = k)) as [->|Hne].
    + rewrite filter_cons_False by (intros ?; done).
      by rewrite filter_ne_absent.
    + apply elem_of_cons in Hin as [->|Hin]; [done|].
      rewrite filter_cons_True by done.
      rewrite (IH Hnd Hin) at 1. apply Permutation_swap.
Qed.

Lemma do_call_ref s ks c fuel :
  holds_keys s ks → length ks < fuel → 16 ≤ fuel →
  ∃ s', do_call fuel c s = Some (fst (ref_call c ks), s') ∧
        holds_keys s' (snd (ref_call c ks)) ∧
        length (snd (ref_call c ks)) ≤ S (length ks).
Proof.
  intros Hk Hfuel H16. destruct c as [v|v|v|v| | | |]; simpl.
  - destruct (insert_holds s ks v fuel Hk Hfuel H16) as (s' & -> & Hk').
    exists s'. simpl. case_bool_decide; simpl; split_and!; try done; [lia|].
    by rewrite length_ins_key.
  - destruct (erase_holds s ks v fuel Hk Hfuel) as (s' & -> & Hk').
    exists s'. simpl. split_and!; try done.
    pose proof (length_filter (λ k, k ≠ v) ks). lia.
  - rewrite (contains_holds s ks v fuel Hk Hfuel). exists s. simpl.
    split_and!; try done. lia.
  - destruct Hk as (l & HR & <-). rewrite length_fmap in Hfuel.
    rewrite (find_addr s l v fuel HR Hfuel). simpl.
    exists s. split_and!; [|by exists l|lia].
    unfold iter_eq, end_. destruct HR as [Hg Hst _ _].
    destruct (addr_of v l) as [a|] eqn:Ha.
    + destruct (addr_of_Some _ _ _ _ Hg Ha) as (Hin & fw & Hfw).
      case_bool_decide; [done|].
      unfold deref. simpl. rewrite Hst, Hfw. simpl.
      by case_bool_decide.
    + case_bool_decide; [|done].
      case_bool_decide as Hin; [|done].
      apply addr_of_present in Hin as [a Ha']. congruence.
  - exists s. split_and!; try done; [|lia]. by rewrite (holds_size s ks).
  - exists s. split_and!; try done; [|lia].
    unfold empty. pose proof (holds_size s ks Hk) as Hs. unfold size in Hs.
    rewrite Hs. by destruct ks.
  - destruct Hk as (l & HR & <-). rewrite length_fmap in Hfuel.
    rewrite (clear_spec s l fuel HR Hfuel). simpl.
    exists (cleared s). split_and!; [done| |lia].
    exists []. split; [by eapply Repr_cleared | done].
  - rewrite (to_list_holds s ks fuel Hk Hfuel). exists s. simpl.
    split_and!; try done. lia.
Qed.

Lemma do_calls_ref cs : ∀ s ks fuel,
  holds_keys s ks → length ks + length cs < fuel → 16 ≤ fuel →
  ∃ s', do_calls fuel cs s = Some (fst (ref_calls cs ks), s') ∧
        holds_keys s' (snd (ref_calls cs ks)) ∧
        length (snd (ref_calls cs ks)) ≤ length ks + length cs.
Proof.
  induction cs as [|c cs IH]; intros s ks fuel Hk Hfuel H16; simpl in *.
  - exists s. split_and!; try done. lia.
  - destruct (do_call_ref s ks c fuel Hk) as (s1 & -> & Hk1 & Hl1); [lia..|].
    destruct (ref_call c ks) as [a ks1]. simpl in *.
    destruct (IH s1 ks1 fuel Hk1) as (s' & -> & Hk' & Hl'); [lia..|].
    destruct (ref_calls cs ks1) as [az ks']. simpl in *.
    exists s'. split_and!; try done. lia.
Qed.

(** X8. Whatever heights are drawn, the container answers like an ordered
    set kept as a strictly increasing list: over any sequence of calls
    from a fresh container, every result of insert, erase, contains, find,
    size, empty and iteration is the result the list gives, and the final
    iteration order is the final list. *)
Theorem answers_match_sorted_list (seed : rng) (cs : list call) (fuel : nat) :
  length cs + 16 < fuel →
  ∃ s, do_calls fuel cs (new_skip_list seed) = Some (fst (ref_calls cs []), s) ∧
       to_list fuel s = Some (snd (ref_calls cs [])).
Proof.
  intros Hfuel.
  destruct (do_calls_ref cs (new_skip_list seed) [] fuel (holds_new seed))
    as (s & Hdo & Hk & Hl); [simpl; lia..|].
  exists s. split; [done|]. apply to_list_holds; [done|]. simpl in Hl. lia.
Qed.

Lemma answers_match_sorted_list_witness :
  length [CallInsert 10; CallInsert 20; CallInsert 10; CallFind 20;
          CallErase 10; CallSize; CallIterate] + 16 < 30 ∧
  ∃ s, do_calls 30 [CallInsert 10; CallInsert 20; CallInsert 10; CallFind 20;
                    CallErase 10; CallSize; CallIterate] (new_skip_list coin)
       = Some ([ABool true; ABool true; ABool false; AFound (Some 20%Z);
                ABool true; ASize 1; AKeys [20%Z]], s) ∧
       to_list 30 s = Some [20%Z].
Proof.
  split; [simpl; lia|].
  apply (answers_match_sorted_list coin
           [CallInsert 10; CallInsert 20; CallInsert 10; CallFind 20;
            CallErase 10; CallSize; CallIterate] 30).
  simpl; lia.
Defined.

(** ** The callers: the stress test and the demo driver *)

Lemma insert_all_spec fuel : ∀ ks s km,
  holds_keys s km → NoDup ks → (∀ k, k ∈ ks → k ∉ km) →
  length km + length ks < fuel → 16 ≤ fuel →
  ∃ s' km', insert_all fuel ks s = Some s' ∧ holds_keys s' km' ∧
            km' ≡ₚ ks ++ km.
Proof.
  induction ks as [|k ks IH]; intros s km Hk Hnd Hnew Hfuel H16; simpl in *.
  - by exists s, km.
  - apply NoDup_cons in Hnd as [Hk' Hnd].
    destruct (insert_holds s km k fuel Hk) as (s1 & -> & Hk1); [lia..|].
    rewrite bool_decide_eq_false_2 in * by (apply Hnew; left). simpl.
    destruct (IH s1 (ins_key k km) Hk1 Hnd) as (s' & km' & -> & Hk2 & Hp).
    + intros x Hx. rewrite elem_of_ins_key. intros [->|Hin]; [done|].
      by apply (Hnew x); [right|].
    + rewrite length_ins_key. lia.
    + done.
    + exists s', km'. split_and!; [done..|].
      rewrite Hp, ins_key_perm. by rewrite Permutation_middle.
Qed.

Lemma contains_all_spec fuel s km : ∀ ks,
  holds_keys s km → (∀ k, k ∈ ks → k ∈ km) → length km < fuel →
  contains_all fuel ks s = Some ().
Proof.
  induction ks as [|k ks IH]; intros Hk Hin Hfuel; simpl; [done|].
  rewrite (contains_holds s km k fuel Hk Hfuel).
  rewrite bool_decide_eq_true_2 by (apply Hin; left). simpl.
  apply IH; [done| |done]. intros x Hx. apply Hin. by right.
Qed.

Lemma erase_all_spec fuel : ∀ ks s km,
  holds_keys s km → NoDup ks → (∀ k, k ∈ ks → k ∈ km) → length km < fuel →
  ∃ s' km', erase_all fuel ks s = Some s' ∧ holds_keys s' km' ∧
            km ≡ₚ ks ++ km'.
Proof.
  induction ks as [|k ks IH]; intros s km Hk Hnd Hin Hfuel; simpl in *.
  - by exists s, km.
  - apply NoDup_cons in Hnd as [Hk' Hnd].
    destruct (erase_holds s km k fuel Hk Hfuel) as (s1 & -> & Hk1).
    rewrite bool_decide_eq_true_2 by (apply Hin; left). simpl.
    destruct (IH s1 _ Hk1 Hnd) as (s' & km' & -> & Hk2 & Hp).
    + intros x Hx. apply list_elem_of_filter. split.
      * by intros ->.
      * apply Hin. by right.
    + pose proof (length_filter (λ x, x ≠ k) km). lia.
    + exists s', km'. split_and!; [done..|].
      rewrite <-Hp. apply filter_ne_perm; [|apply Hin; left].
      by eapply sorted_lt_NoDup, holds_sorted.
Qed.

(** X6. The stress test passes for every list of distinct keys, every
    order of erasure and every seed: all insertions succeed, the size is
    the number of keys, every key is found, iteration yields the keys in
    strictly increasing order, all erasures succeed and the list ends
    empty with size 0. *)
Theorem stress_round_trip (seed : rng) (ks ks' : list Z) (fuel : nat) :
  NoDup ks → ks' ≡ₚ ks → length ks + 16 < fuel →
  ∃ s1 keys s2,
    insert_all fuel ks (new_skip_list seed) = Some s1 ∧
    size s1 = N.of_nat (length ks) ∧
    contains_all fuel ks s1 = Some () ∧
    to_list fuel s1 = Some keys ∧ StronglySorted Z.lt keys ∧ keys ≡ₚ ks ∧
    erase_all fuel ks' s1 = Some s2 ∧
    empty s2 = true ∧ size s2 = 0%N.
Proof.
  intros Hnd Hperm Hfuel.
  destruct (insert_all_spec fuel ks (new_skip_list seed) [] (holds_new seed)
              Hnd) as (s1 & km & Hins & Hk1 & Hp1).
  { intros k _. apply not_elem_of_nil. }
  { simpl. lia. }
  { lia. }
  rewrite app_nil_r in Hp1.
  assert (length km = length ks) as Hlen by (by rewrite Hp1).
  destruct (erase_all_spec fuel ks' s1 km Hk1) as (s2 & km2 & Her & Hk2 & Hp2).
  { by rewrite Hperm. }
  { intros k Hk. by rewrite Hp1, <-Hperm. }
  { lia. }
  assert (km2 = []) as ->.
  { apply Permutation_length in Hp2. rewrite length_app in Hp2.
    apply Permutation_length in Hperm. apply nil_length_inv. lia. }
  exists s1, km, s2. split_and!; try done.
  - by rewrite (holds_size s1 km), Hlen.
  - apply (contains_all_spec fuel s1 km); [done| |lia].
    intros k Hk. by rewrite Hp1.
  - apply to_list_holds; [done|lia].
  - by eapply holds_sorted.
  - unfold empty. pose proof (holds_size s2 [] Hk2) as Hs.
    unfold size in Hs. by rewrite Hs.
  - by rewrite (holds_size s2 []).
Qed.

Lemma stress_round_trip_witness :
  NoDup [3; 1; 2]%Z ∧ [2; 3; 1]%Z ≡ₚ [3; 1; 2]%Z ∧
  length [3; 1; 2]%Z + 16 < 30 ∧
  ∃ s1 keys s2,
    insert_all 30 [3; 1; 2]%Z (new_skip_list coin) = Some s1 ∧
    size s1 = N.of_nat (length [3; 1; 2]%Z) ∧
    contains_all 30 [3; 1; 2]%Z s1 = Some () ∧
    to_list 30 s1 = Some keys ∧ StronglySorted Z.lt keys ∧
    keys ≡ₚ [3; 1; 2]%Z ∧
    erase_all 30 [2; 3; 1]%Z s1 = Some s2 ∧
    empty s2 = true ∧ size s2 = 0%N.
Proof.
  assert (NoDup [3; 1; 2]%Z) as Hnd
    by (by apply (bool_decide_eq_true_1 _)).
  assert ([2; 3; 1]%Z ≡ₚ [3; 1; 2]%Z) as Hp
    by (by apply (bool_decide_eq_true_1 _)).
  split; [exact Hnd|]. split; [exact Hp|]. split; [simpl; lia|].
  apply (stress_round_trip coin [3; 1; 2]%Z [2; 3; 1]%Z 30 Hnd Hp).
  simpl; lia.
Defined.

(** X11. The demo driver never trips one of its assertions, whatever the
    seed of the random engine, and prints exactly 20. *)
Theorem main_prints_20 (seed : rng) (fuel : nat) :
  18 ≤ fuel → main fuel seed = Some [20%Z].
Proof.
  intros Hfuel. unfold main.
  destruct (insert_holds _ [] 10 fuel (holds_new seed)) as (s1 & -> & H1);
    [simpl; lia..|].
  simpl in H1. simpl.
  destruct (insert_holds s1 [10%Z] 20 fuel H1) as (s2 & -> & H2);
    [simpl; lia..|].
  rewrite bool_decide_eq_false_2 in * by set_solver. simpl in H2. simpl.
  destruct (insert_holds s2 [10; 20]%Z 10 fuel H2) as (s3 & -> & H3);
    [simpl; lia..|].
  rewrite bool_decide_eq_true_2 in * by set_solver. simpl.
  rewrite (contains_holds s3 [10; 20]%Z 20 fuel H3) by (simpl; lia).
  rewrite bool_decide_eq_true_2 by set_solver. simpl.
  rewrite (contains_holds s3 [10; 20]%Z 30 fuel H3) by (simpl; lia).
  rewrite bool_decide_eq_false_2 by set_solver. simpl.
  destruct (erase_holds s3 [10; 20]%Z 10 fuel H3) as (s4 & -> & H4);
    [simpl; lia|].
  rewrite bool_decide_eq_true_2 by set_solver. simpl.
  assert (filter (λ k, k ≠ 10%Z) [10; 20]%Z = [20%Z]) as Hf by done.
  rewrite Hf in H4.
  destruct (erase_holds s4 [20%Z] 10 fuel H4) as (s5 & -> & H5);
    [simpl; lia|].
  rewrite bool_decide_eq_false_2 by set_solver. simpl.
  assert (filter (λ k, k ≠ 10%Z) [20%Z] = [20%Z]) as Hf' by done.
  rewrite Hf' in H5.
  apply to_list_holds; [done|simpl; lia].
Qed.

Lemma main_prints_20_witness : 18 ≤ 18 ∧ main 18 coin = Some [20%Z].
Proof. split; [lia|]. apply (main_prints_20 coin 18). lia. Defined.

(** * Allocation failure *)

(** ** The calls on a list whose height may be raised *)

Lemma Repr_Loose s l : Repr s l → Loose s l.
Proof.
  intros [Hg Hst Hh Hc]. split; [done..| |done].
  pose proof (good_maxh _ _ Hg). lia.
Qed.

Lemma Loose_size s l : Loose s l → N.to_nat (size s) = length l.
Proof. intros [_ _ _ Hc]. unfold size. rewrite Hc. lia. Qed.

Lemma insert_mem_Enough fuel v s :
  insert_mem Enough fuel v s = (λ p, Returned p.1 p.2) <$> insert fuel v s.
Proof.
  unfold insert_mem, insert.
  destruct (descend_path _ _ _ _ _ _) as [[c up]|]; simpl; [|done].
  destruct (get_forward _ _ _) as [cur|]; simpl; [|done].
  destruct (matches _ _ _) as [[|]|]; simpl; [done| |done].
  destruct (generateRandomHeight _ _) as [[nh g]|]; simpl; [|done].
  destruct (nh >? current_height_ s)%Z; simpl.
  - destruct (raise_path _ _ _ _) as [up'|]; simpl; [|done].
    unfold new_node. by destruct (splice _ _ _ _ _).
  - unfold new_node. by destruct (splice _ _ _ _ _).
Qed.

Lemma insert_mem_loose m s l v fuel :
  Loose s l → length l < fuel → 16 ≤ fuel → m ≠ NoUpdatePath →
  (v ∈ (tkey <$> l) ∧ insert_mem m fuel v s = Some (Returned false s)) ∨
  ((v ∉ (tkey <$> l)) ∧
   ∃ l1 l2 h,
     l = l1 ++ l2 ∧ 1 ≤ h ≤ 16 ∧
     generateRandomHeight fuel (random_engine_ s) =
       Some (Z.of_nat h,
             mkRng (draws (random_engine_ s)) (cursor (random_engine_ s) + h)) ∧
     let g := mkRng (draws (random_engine_ s))
                (cursor (random_engine_ s) + h) in
     let hgt := Z.max (current_height_ s) (Z.of_nat h) in
     let l' := l1 ++ mkTower (fresh (dom (store s))) v h :: l2 in
     match m with
     | NoNode =>
         let s' := mkList (store s) (sentinel_head_ s) hgt
                     (element_count_ s) g in
         insert_mem m fuel v s = Some (BadAlloc s') ∧ Loose s' l
     | _ =>
         let s' := mkList (repr (sentinel_head_ s) l') (sentinel_head_ s) hgt
                     (N.of_nat (length l')) g in
         insert_mem m fuel v s = Some (Returned true s') ∧ Loose s' l'
     end).
Proof.
  intros [Hg Hst Hh Hc] Hfuel H16 Hm.
  destruct (key_split v l (good_sorted _ _ Hg)) as (l1 & l2 & -> & Hlt & Hge).
  set (n := Z.to_nat (current_height_ s)).
  assert (current_height_ s = Z.of_nat n) as Hn by lia.
  destruct (search_repr (sentinel_head_ s) l1 l2 v Hg Hlt Hge fuel n)
    as (c & up & Hd & Hlen & Hup & Hgf); [done|lia|lia|].
  pose proof (matches_repr (sentinel_head_ s) l1 l2 v Hg Hlt Hge) as Hm'.
  assert (insert_mem m fuel v s =
    (dup ← Some (bool_decide (v ∈ tkey <$> l1 ++ l2));
     if dup : bool then Some (Returned false s)
     else
      '(newHeight, g) ← generateRandomHeight fuel (random_engine_ s);
      '(update_path, height) ←
        (if (newHeight >? current_height_ s)%Z then
           up' ← raise_path (Z.to_nat (newHeight - current_height_ s))
                  (current_height_ s) (sentinel_head_ s) up;
           Some (up', newHeight)
         else Some (up, current_height_ s));
      match m with
      | NoNode =>
          Some (BadAlloc (mkList (store s) (sentinel_head_ s) height
                            (element_count_ s) g))
      | _ =>
          let '(newNode, h) := new_node (store s) newHeight v in
          h' ← splice (Z.to_nat newHeight) 0 h update_path newNode;
          Some (Returned true
                  (mkList h' (sentinel_head_ s) height
                     (element_count_ s + 1)%N g))
      end)) as ->.
  { unfold insert_mem. fold n. rewrite Hst.
    change (Z.to_nat MAX_HEIGHT) with 16. rewrite Hd. simpl.
    rewrite Hgf. simpl. rewrite Hm'. by destruct m. }
  simpl. case_bool_decide as Hin; [by left|right].
  split; [done|].
  destruct (generateRandomHeight_nat fuel (random_engine_ s) H16)
    as (h & Hh1 & Hgen).
  exists l1, l2, h. do 3 (split; [done|]).
  rewrite Hgen, Hst. simpl.
  set (a := fresh (dom (repr (sentinel_head_ s) (l1 ++ l2)))).
  set (l' := l1 ++ mkTower a v h :: l2).
  assert (good (sentinel_head_ s) l') as Hg'.
  { apply good_insert; [done| |done..]. by apply fresh_not_in. }
  pose proof (maxh_insert l1 l2 (mkTower a v h)) as Hmax. simpl in Hmax.
  assert ((element_count_ s + 1)%N = N.of_nat (length l')) as Hcount.
  { rewrite Hc. unfold l'. rewrite !length_app. simpl. lia. }
  assert (∃ upf,
    (if (Z.of_nat h >? current_height_ s)%Z then
       up' ← raise_path (Z.to_nat (Z.of_nat h - current_height_ s))
              (current_height_ s) (sentinel_head_ s) up;
       Some (up', Z.of_nat h)
     else Some (up, current_height_ s)) =
    Some (upf, Z.max (current_height_ s) (Z.of_nat h)) ∧
    ∀ i, i < h →
      ∃ ci, upf !! i = Some (Some ci) ∧ upd_pos (sentinel_head_ s) l1 i ci)
    as (upf & -> & Hupf).
  { destruct (Z.of_nat h >? current_height_ s)%Z eqn:Hgt.
    - apply Z.gtb_lt in Hgt.
      destruct (raise_path_spec (sentinel_head_ s) (h - n) n up)
        as (upf & Hr & _ & Hin' & Hout); [lia|].
      replace (Z.to_nat (Z.of_nat h - current_height_ s)) with (h - n) by lia.
      rewrite <- Hn in Hr. rewrite Hr. simpl. exists upf. split.
      + do 2 f_equal. lia.
      + intros i Hi. destruct (decide (i < n)) as [Hlow|Hhigh].
        * rewrite Hout by lia. by apply Hup.
        * exists (sentinel_head_ s). split; [apply Hin'; lia|].
          exists [], l1. split_and!; [done..| |simpl; lia].
          apply maxh_low. rewrite maxh_app in Hh. lia.
    - rewrite Z.gtb_ltb in Hgt. apply Z.ltb_ge in Hgt.
      exists up. split; [do 2 f_equal; lia|].
      intros i Hi. apply Hup. lia. }
  simpl. destruct m; [|done|].
  - unfold new_node. rewrite Nat2Z.id. fold a.
    rewrite (splice_repr _ l1 l2 a v h upf); [|done|by apply fresh_not_in|done].
    simpl. rewrite Hcount. split; [done|].
    split; simpl; [done..| |done]. unfold l'. rewrite Hmax. lia.
  - split; [done|]. split; simpl; [done..|lia|done].
Qed.

Lemma unlink_loose head l1 t r2 up N :
  good head (l1 ++ t :: r2) → theight t ≤ N →
  (∀ i, i < N → ∃ ci, up !! i = Some (Some ci) ∧ upd_pos head l1 i ci) →
  ∀ n j, j ≤ theight t → j + n = N →
    unlink n j (del_heap head l1 t r2 j) up (taddr t) =
      Some (del_heap head l1 t r2 (theight t), theight t).
Proof.
  intros Hg HN Hup. induction n as [|n IH]; intros j Hj Hn.
  - unfold unlink. by replace j with (theight t) by lia.
  - destruct (Hup j) as (cj & Hcj & Hpos); [lia|].
    pose proof (del_heap_get head l1 t r2 Hg j cj Hpos) as Hget.
    destruct (decide (j < theight t)) as [Hlt|Hge].
    + replace (del_d (taddr t) (theight t) r2 j j) with (Some (taddr t))
        in Hget by (unfold del_d; case_decide; [done|lia]).
      rewrite (unlink_S n j _ up (taddr t) cj (nxtd nil_d j r2)
                 (del_heap head l1 t r2 (S j)) Hcj Hget).
      * apply IH; lia.
      * unfold get_forward. rewrite del_heap_cur by done. simpl.
        by apply linksd_lookup.
      * by apply del_heap_set.
    + assert (j = theight t) as -> by lia.
      apply (unlink_break n _ _ up _ cj _ Hcj Hget).
      unfold del_d. case_decide; [lia|].
      intros Heq. apply nxtd_elem in Heq as [?|(t' & Ht' & Ha & _)]; [done|].
      apply (good_middle_fresh _ _ _ _ Hg). rewrite <-Ha.
      by apply list_elem_of_fmap_2.
Qed.

Lemma erase_loose s l v fuel :
  Loose s l → length l < fuel →
  ((v ∉ (tkey <$> l)) ∧ erase fuel v s = Some (false, s)) ∨
  (∃ l1 t r2,
     l = l1 ++ t :: r2 ∧ tkey t = v ∧
     let s' := mkList (repr (sentinel_head_ s) (l1 ++ r2)) (sentinel_head_ s)
                 (Z.of_nat (maxh (l1 ++ r2))) (N.of_nat (length (l1 ++ r2)))
                 (random_engine_ s) in
     erase fuel v s = Some (true, s') ∧ Repr s' (l1 ++ r2)).
Proof.
  intros [Hg Hst Hh Hc] Hfuel.
  unfold erase, empty. destruct (element_count_ s =? 0)%N eqn:He.
  { apply N.eqb_eq in He. left.
    assert (l = []) as -> by (destruct l; simpl in *; [done | lia]).
    split; [apply not_elem_of_nil | done]. }
  destruct (key_split v l (good_sorted _ _ Hg)) as (l1 & l2 & -> & Hlt & Hge).
  set (n := Z.to_nat (current_height_ s)).
  destruct (search_repr (sentinel_head_ s) l1 l2 v Hg Hlt Hge fuel n)
    as (c & up & Hd & Hlen & Hup & Hgf); [done|lia|lia|].
  pose proof (matches_repr (sentinel_head_ s) l1 l2 v Hg Hlt Hge) as Hm.
  rewrite Hst. change (Z.to_nat MAX_HEIGHT) with 16.
  rewrite Hd. simpl. rewrite Hgf. simpl. rewrite Hm. simpl.
  destruct l2 as [|t r2].
  { left. simpl. unfold nil_d. split; [|done].
    simpl in Hm. unfold nil_d, matches in Hm.
    injection Hm as Hm. symmetry in Hm.
    by apply bool_decide_eq_false_1 in Hm. }
  pose proof (good_heights _ _ Hg) as Hhs.
  apply Forall_app in Hhs as [_ [Ht _]%Forall_cons].
  simpl in Hgf. simpl. destruct (decide (0 < theight t)); [|lia].
  case_bool_decide as Hin; [right|by left].
  pose proof (found_first l1 t r2 v (good_sorted _ _ Hg) Hlt Hge Hin) as Hk.
  exists l1, t, r2. do 2 (split; [done|]).
  assert (good (sentinel_head_ s) (l1 ++ r2)) as Hg'
    by (by eapply good_delete).
  split; [|by split].
  pose proof (maxh_insert l1 r2 t) as Hmax.
  rewrite <-(del_heap_0 (sentinel_head_ s) l1 t r2) by done.
  rewrite (unlink_loose _ l1 t r2 up n Hg); [|lia|done|lia|lia]. simpl.
  rewrite del_heap_cur by done. simpl.
  rewrite del_heap_delete by done.
  unfold trim_height.
  destruct (0 <? current_height_ s)%Z eqn:Hpos;
    [|apply Z.ltb_ge in Hpos; lia].
  fold n. rewrite trim_spec; [|lia|lia]. simpl.
  do 3 f_equal. rewrite Hc, !length_app. simpl. lia.
Qed.

Lemma contains_loose s l v fuel :
  Loose s l → length l < fuel →
  contains fuel v s = Some (bool_decide (v ∈ tkey <$> l)).
Proof.
  intros [Hg Hst Hh Hc] Hfuel.
  destruct (key_split v l (good_sorted _ _ Hg)) as (l1 & l2 & -> & Hlt & Hge).
  destruct (search_repr (sentinel_head_ s) l1 l2 v Hg Hlt Hge fuel
              (Z.to_nat (current_height_ s)))
    as (c & up & Hd & Hlen & Hup & Hgf); [done|lia|lia|].
  apply descend_path_fst in Hd.
  unfold contains. rewrite Hst, Hd. simpl. rewrite Hgf. simpl.
  by apply matches_repr.
Qed.

Lemma Loose_tight s l :
  Loose s l →
  Repr (mkList (store s) (sentinel_head_ s) (Z.of_nat (maxh l))
          (element_count_ s) (random_engine_ s)) l.
Proof. by intros [Hg Hst Hh Hc]. Qed.

Lemma clear_loose s l fuel :
  Loose s l → length l < fuel →
  clear fuel s = Some (cleared s) ∧ Repr (cleared s) [].
Proof.
  intros HL%Loose_tight Hfuel. split.
  - apply (clear_spec _ l fuel HL Hfuel).
  - apply (Repr_cleared _ l HL).
Qed.

Lemma max_node_height_loose s l : Loose s l → max_node_height s = maxh l.
Proof. intros HL%Loose_tight. apply (max_node_height_spec _ l HL). Qed.

(** ** Operation sequences with failing allocations *)

Lemma apply_mem_op_loose s l om fuel :
  Loose s l → length l < fuel → 16 ≤ fuel →
  ∃ s' l', apply_mem_op fuel om s = Some s' ∧ Loose s' l' ∧
    length l' ≤ S (length l).
Proof.
  intros HL Hfuel H16. destruct om as [[v|v|] m]; unfold apply_mem_op; simpl.
  - assert (m = NoUpdatePath ∨ m ≠ NoUpdatePath) as [->|Hm]
      by (destruct m; auto).
    { exists s, l. split_and!; [done..|lia]. }
    destruct (insert_mem_loose m s l v fuel HL Hfuel H16 Hm)
      as [[_ ->]|[_ (l1 & l2 & h & -> & _ & _ & Hres)]].
    { exists s, l. split_and!; [done..|lia]. }
    destruct m; [|done|]; destruct Hres as [-> HL'].
    + eexists _, _. split_and!; [done|apply HL'|].
      rewrite !length_app. simpl. lia.
    + eexists _, _. split_and!; [done|apply HL'|lia].
  - unfold erase_mem. destruct (empty s).
    { exists s, l. split_and!; [done..|lia]. }
    assert (m = NoUpdatePath ∨ m ≠ NoUpdatePath) as [->|Hm]
      by (destruct m; auto).
    { exists s, l. split_and!; [done..|lia]. }
    assert (state_after <$>
              match m with
              | NoUpdatePath => Some (BadAlloc s)
              | _ => '(b, s') ← erase fuel v s; Some (Returned b s')
              end = snd <$> erase fuel v s) as ->.
    { destruct m; [|done|]; by destruct (erase fuel v s) as [[??]|]. }
    destruct (erase_loose s l v fuel HL Hfuel)
      as [[_ ->]|(l1 & t & r2 & -> & _ & -> & HR')].
    + exists s, l. split_and!; [done..|lia].
    + eexists _, _. split_and!; [done|apply Repr_Loose, HR'|].
      rewrite !length_app. simpl. lia.
  - destruct (clear_loose s l fuel HL Hfuel) as [-> HR].
    exists (cleared s), []. split_and!; [done|by apply Repr_Loose|simpl; lia].
Qed.

Lemma run_mem_loose ops : ∀ s l fuel,
  Loose s l → length l + length ops < fuel → 16 ≤ fuel →
  ∃ s' l', run_mem fuel ops s = Some s' ∧ Loose s' l' ∧
    length l' ≤ length l + length ops.
Proof.
  induction ops as [|om ops IH]; intros s l fuel HL Hfuel H16; simpl in *.
  - exists s, l. split_and!; [done..|lia].
  - destruct (apply_mem_op_loose s l om fuel HL) as (s1 & l1 & -> & HL1 & Hl1);
      [lia..|].
    destruct (IH s1 l1 fuel HL1) as (s' & l' & Hrun & HL' & Hl'); [lia..|].
    exists s', l'. simpl. split_and!; [done..|lia].
Qed.

Lemma apply_mem_op_tight s l om fuel :
  Repr s l → length l < fuel → 16 ≤ fuel → node_alloc_fails om = false →
  ∃ s' l', apply_mem_op fuel om s = Some s' ∧ Repr s' l' ∧
    length l' ≤ S (length l).
Proof.
  intros HR Hfuel H16 Hok.
  destruct om as [[v|v|] m]; unfold apply_mem_op; simpl.
  - destruct m; [|by exists s, l; split_and!; [..|lia]|done].
    rewrite insert_mem_Enough.
    destruct (insert_spec s l v fuel HR Hfuel H16)
      as [[Hin ->]|[Hin (l1 & l2 & h & -> & Hh & _ & -> & HR')]].
    + exists s, l. split_and!; [done..|lia].
    + eexists _, _. split_and!; [done|apply HR'|].
      rewrite !length_app. simpl. lia.
  - unfold erase_mem. destruct (empty s).
    { exists s, l. split_and!; [done..|lia]. }
    assert (m = NoUpdatePath ∨ m ≠ NoUpdatePath) as [->|Hm]
      by (destruct m; auto).
    { exists s, l. split_and!; [done..|lia]. }
    assert (state_after <$>
              match m with
              | NoUpdatePath => Some (BadAlloc s)
              | _ => '(b, s') ← erase fuel v s; Some (Returned b s')
              end = snd <$> erase fuel v s) as ->.
    { destruct m; [|done|]; by destruct (erase fuel v s) as [[??]|]. }
    destruct (erase_spec s l v fuel HR Hfuel)
      as [[_ ->]|(l1 & t & r2 & -> & _ & -> & HR')].
    + exists s, l. split_and!; [done..|lia].
    + eexists _, _. split_and!; [done|apply HR'|].
      rewrite !length_app. simpl. lia.
  - rewrite (clear_spec s l fuel HR Hfuel).
    exists (cleared s), []. split_and!; [done|by eapply Repr_cleared|simpl; lia].
Qed.

Lemma run_mem_tight ops : ∀ s l fuel,
  Repr s l → length l + length ops < fuel → 16 ≤ fuel →
  existsb node_alloc_fails ops = false →
  ∃ s' l', run_mem fuel ops s = Some s' ∧ Repr s' l'.
Proof.
  induction ops as [|om ops IH]; intros s l fuel HR Hfuel H16 Hok; simpl in *.
  - by exists s, l.
  - apply orb_false_iff in Hok as [Hom Hok].
    destruct (apply_mem_op_tight s l om fuel HR) as (s1 & l1 & -> & HR1 & Hl1);
      [lia..|done|].
    destruct (IH s1 l1 fuel HR1) as (s' & l' & Hrun & HR'); [lia..|done|].
    by exists s', l'.
Qed.

Lemma insert_loose s l v fuel :
  Loose s l → length l < fuel → 16 ≤ fuel → v ∉ (tkey <$> l) →
  ∃ l1 l2 h s',
    l = l1 ++ l2 ∧ 1 ≤ h ≤ 16 ∧
    insert fuel v s = Some (true, s') ∧
    Loose s' (l1 ++ mkTower (fresh (dom (store s))) v h :: l2) ∧
    sentinel_head_ s' = sentinel_head_ s.
Proof.
  intros HL Hfuel H16 Hin.
  destruct (insert_mem_loose Enough s l v fuel HL Hfuel H16)
    as [[? _]|[_ (l1 & l2 & h & -> & Hh & _ & Hins & HL')]]; [done..|].
  rewrite insert_mem_Enough in Hins.
  destruct (insert fuel v s) as [[b s1]|]; [|done].
  simpl in Hins. injection Hins as -> ->.
  by eexists l1, l2, h, _.
Qed.

(** * Properties under allocation failure *)

(** C5. A fresh container on which [insert 10] draws the height 2 and the
    allocation of the node fails: the call leaves by the exception with
    no real node in the list and [current_height_] 2, which is not the
    maximum node height 0. *)
Theorem failed_allocation_leaves_height_raised :
  ∃ s, insert_mem NoNode 20 10 (new_skip_list coin) = Some (BadAlloc s) ∧
    generateRandomHeight 20 (random_engine_ (new_skip_list coin))
      = Some (2%Z, random_engine_ s) ∧
    store s = store (new_skip_list coin) ∧ real_nodes s = ∅ ∧
    size s = 0%N ∧ max_node_height s = 0 ∧ current_height_ s = 2%Z ∧
    get_forward (store s) (sentinel_head_ s) 1 = Some None.
Proof.
  eexists. split; [vm_compute; reflexivity|].
  split_and!; vm_compute; reflexivity.
Qed.

(** X3. On a container reached by any sequence of calls, failed
    allocations included: inserting an absent key and erasing it again
    gives back the store and the size the container had, whatever height
    was drawn for the node, and leaves [current_height_] at the maximum
    node height. That is the height the container had when no node
    allocation has failed before, and can be below it otherwise. *)
Theorem insert_then_erase_restores (seed : rng) (ops : list (op * memory))
    (v : Z) (fuel : nat) :
  length ops + 16 < fuel →
  ∃ s, run_mem fuel ops (new_skip_list seed) = Some s ∧
    (contains fuel v s = Some false →
     ∃ s1 s2, insert fuel v s = Some (true, s1) ∧
       erase fuel v s1 = Some (true, s2) ∧
       store s2 = store s ∧ sentinel_head_ s2 = sentinel_head_ s ∧
       size s2 = size s ∧
       current_height_ s2 = Z.of_nat (max_node_height s) ∧
       (current_height_ s2 ≤ current_height_ s)%Z ∧
       (existsb node_alloc_fails ops = false →
        current_height_ s2 = current_height_ s)).
Proof.
  intros Hfuel.
  destruct (run_mem_loose ops (new_skip_list seed) [] fuel
              (Repr_Loose _ _ (Repr_new seed)))
    as (s & l & Hrun & HL & Hl); [simpl; lia..|].
  simpl in Hl. exists s. split; [done|]. intros Hc.
  rewrite (contains_loose s l v fuel HL) in Hc by lia.
  injection Hc as Hc. apply bool_decide_eq_false_1 in Hc.
  destruct (insert_loose s l v fuel HL)
    as (l1 & l2 & h & s1 & -> & Hh & Hins & HL1 & Hhead); [lia..|done|].
  destruct (erase_loose _ _ v fuel HL1)
    as [[Hin _]|(l1' & t' & r2' & Heq & Hk & Her & HR2)].
  { rewrite !length_app in *. simpl. lia. }
  { exfalso. apply Hin. rewrite fmap_app, fmap_cons.
    apply elem_of_app. right. left. }
  assert (l1 ++ l2 = l1' ++ r2') as Hsame.
  { eapply middle_unique; [|apply Heq|by rewrite Hk].
    eapply sorted_lt_NoDup, good_keys_sorted, HL1. }
  pose proof (max_node_height_loose s _ HL) as Hmax.
  exists s1. eexists. split; [done|]. split; [apply Her|].
  destruct HL as [_ Hst Hh' Hcnt]. unfold size. simpl.
  rewrite <-Hsame, Hhead, Hmax. split_and!; [done..|by rewrite Hcnt| done|lia|].
  intros Hok.
  destruct (run_mem_tight ops (new_skip_list seed) [] fuel (Repr_new seed))
    as (s' & l' & Hrun' & HR'); [simpl; lia..|done|].
  rewrite Hrun in Hrun'. injection Hrun' as <-.
  rewrite <-Hmax, (max_node_height_spec s l' HR'). symmetry. apply HR'.
Qed.

Lemma insert_then_erase_restores_witness :
  length [(Insert 10, NoNode)] + 16 < 40 ∧
  ∃ s, run_mem 40 [(Insert 10, NoNode)] (new_skip_list coin) = Some s ∧
    current_height_ s = 2%Z ∧ contains 40 15 s = Some false ∧
    ∃ s1 s2, insert 40 15 s = Some (true, s1) ∧
      erase 40 15 s1 = Some (true, s2) ∧
      store s2 = store s ∧ sentinel_head_ s2 = sentinel_head_ s ∧
      size s2 = size s ∧ current_height_ s2 = 0%Z.
Proof.
  split; [simpl; lia|].
  destruct (insert_then_erase_restores coin [(Insert 10, NoNode)] 15 40)
    as (s & Hrun & Hres); [simpl; lia|].
  exists s. split; [assumption|].
  pose proof Hrun as Heq. vm_compute in Heq. injection Heq as <-.
  split; [reflexivity|]. split; [vm_compute; reflexivity|].
  destruct Hres as (s1 & s2 & Hins & Her & Hst & Hhd & Hsz & Hh & _);
    [vm_compute; reflexivity|].
  exists s1, s2. do 5 (split; [assumption|]).
  rewrite Hh. vm_compute. reflexivity.
Defined.

(** X13. Whatever calls are made and whichever of their allocations fail,
    every call returns or leaves by the allocation failure, and
    afterwards [current_height_] is at least the maximum node height and
    at most 16; the sentinel has no successor at the levels from
    [current_height_] on; the size is the number of real nodes. The
    height is the maximum node height when no node allocation failed. *)
Theorem current_height_bounds_node_heights (seed : rng)
    (ops : list (op * memory)) (fuel : nat) :
  length ops + 16 < fuel →
  ∃ s, run_mem fuel ops (new_skip_list seed) = Some s ∧
    (Z.of_nat (max_node_height s) ≤ current_height_ s ≤ 16)%Z ∧
    (∀ i, i < 16 → (current_height_ s ≤ Z.of_nat i)%Z →
       get_forward (store s) (sentinel_head_ s) i = Some None) ∧
    N.to_nat (size s) = stdpp.base.size (real_nodes s) ∧
    (existsb node_alloc_fails ops = false →
     current_height_ s = Z.of_nat (max_node_height s)).
Proof.
  intros Hfuel.
  destruct (run_mem_loose ops (new_skip_list seed) [] fuel
              (Repr_Loose _ _ (Repr_new seed)))
    as (s & l & Hrun & HL & Hl); [simpl; lia..|].
  exists s. split; [done|].
  rewrite (max_node_height_loose s l HL).
  split; [apply HL|]. split_and!.
  - intros i Hi Hle. destruct HL as [_ -> Hh _].
    rewrite repr_head_forward by done. f_equal. apply nxtd_nil_None. lia.
  - rewrite (Loose_size s l HL). destruct HL as [Hg Hst _ _].
    unfold real_nodes. rewrite Hst.
    pose proof (repr_map_size _ _ Hg) as Hsz.
    rewrite map_size_delete, Hsz.
    unfold repr, seg. by rewrite lookup_insert_eq.
  - intros Hok.
    destruct (run_mem_tight ops (new_skip_list seed) [] fuel (Repr_new seed))
      as (s' & l' & Hrun' & HR'); [simpl; lia..|done|].
    rewrite Hrun in Hrun'. injection Hrun' as <-.
    rewrite <-(max_node_height_loose s l HL),
      (max_node_height_spec s l' HR'). apply HR'.
Qed.

Lemma current_height_bounds_node_heights_witness :
  length [(Insert 20, Enough); (Erase 20, Enough); (Insert 10, NoNode)] + 16
    < 40 ∧
  ∃ s, run_mem 40 [(Insert 20, Enough); (Erase 20, Enough); (Insert 10, NoNode)]
         (new_skip_list coin) = Some s ∧
    max_node_height s = 0 ∧ current_height_ s = 2%Z ∧
    (Z.of_nat (max_node_height s) ≤ current_height_ s ≤ 16)%Z.
Proof.
  split; [simpl; lia|].
  destruct (current_height_bounds_node_heights coin
              [(Insert 20, Enough); (Erase 20, Enough); (Insert 10, NoNode)] 40)
    as (s & Hrun & Hb & _); [simpl; lia|].
  exists s. split; [assumption|].
  pose proof Hrun as Heq. vm_compute in Heq. injection Heq as <-.
  split; [vm_compute; reflexivity|]. split; [reflexivity|assumption].
Defined.
